(** * multi-tenant-knex: the tenant connection and schema-lifecycle manager

    A shallow embedding of the class [MultiTenantKnex] (both variants found in
    the repository: the single-directory one and the system/tenant split one)
    together with the parts of its collaborators the class talks to: the
    knex driver (connection handles, the migration ledger), Objection's model
    classes as the module system hands them out, and the console.

    Methods are functions in a state-and-exception monad.  [await] is
    sequencing: one method runs at a time, and where the code starts several
    asynchronous calls at once they are taken in list order. *)

From Stdlib Require Import Ascii String.
From stdpp Require Import gmap strings list.

Open Scope string_scope.
Open Scope list_scope.

(** ** JavaScript values used by the class *)

(** A thrown value.  [instanceof_Error] is the outcome of
    [error instanceof Error]; [code] is the [error.code] property (SQLSTATE
    for errors coming from the storage layer). *)
Record Thrown := mkThrown {
  instanceof_Error : bool;
  message : string;
  code : option string }.

Definition Error (msg : string) : Thrown := mkThrown true msg None.
Definition TypeError (msg : string) : Thrown := mkThrown true msg None.
Definition DatabaseError (msg sqlstate : string) : Thrown :=
  mkThrown true msg (Some sqlstate).

#[global] Instance Thrown_eq_dec : EqDecision Thrown.
Proof. solve_decision. Defined.

(** Plain objects used as dictionaries ([{ [key: string]: ... }]): the own
    properties in insertion order (the order of [Object.keys] and [for..in]),
    on top of the members every plain object inherits from
    [Object.prototype]. *)
Definition Object_prototype : list string :=
  [ "constructor"; "__defineGetter__"; "__defineSetter__"; "hasOwnProperty";
    "__lookupGetter__"; "__lookupSetter__"; "isPrototypeOf";
    "propertyIsEnumerable"; "toString"; "valueOf"; "__proto__";
    "toLocaleString" ].

(** What [o[k]] evaluates to. *)
Inductive Member (V : Type) :=
  | Own (v : V)              (* an own property *)
  | Inherited (k : string)   (* a member of Object.prototype *)
  | Missing.                 (* undefined *)
Arguments Own {V} v.
Arguments Inherited {V} k.
Arguments Missing {V}.

Section JsObject.
Context {V : Type}.

Fixpoint own_get (o : list (string * V)) (k : string) : option V :=
  match o with
  | [] => None
  | (k', v) :: r => if decide (k = k') then Some v else own_get r k
  end.

(** [o[k] = v]: an existing key keeps its place, a new key goes last. *)
Fixpoint obj_set (o : list (string * V)) (k : string) (v : V)
  : list (string * V) :=
  match o with
  | [] => [(k, v)]
  | (k', v') :: r =>
      if decide (k = k') then (k, v) :: r else (k', v') :: obj_set r k v
  end.

Definition obj_keys (o : list (string * V)) : list string := o.*1.

Definition js_get (o : list (string * V)) (k : string) : Member V :=
  match own_get o k with
  | Some v => Own v
  | None => if bool_decide (k ∈ Object_prototype) then Inherited k
            else Missing
  end.

(** Truthiness of [o[k]]: stored values are objects, inherited members are
    functions (or the prototype itself); only [undefined] is falsy. *)
Definition truthy (m : Member V) : bool :=
  match m with Missing => false | _ => true end.

End JsObject.

(** A reference held in a field typed [any]. *)
Inductive JsRef :=
  | Undefined
  | Ref (o : nat)                (* a binding object, by identity *)
  | ProtoMember (k : string).    (* a member inherited from Object.prototype *)

Definition ref_truthy (r : JsRef) : bool :=
  match r with Undefined => false | _ => true end.

Definition member_ref (m : Member nat) : JsRef :=
  match m with
  | Own o => Ref o
  | Inherited k => ProtoMember k
  | Missing => Undefined
  end.

(** [a || b] on optional strings: the empty string and [undefined] are falsy. *)
Definition js_or (a b : option string) : option string :=
  match a with
  | Some s => if decide (s = "") then b else Some s
  | None => b
  end.

(** [String.prototype.toLowerCase] on the ASCII range: strings are byte
    strings here, and the letters [A]..[Z] are the ones that change. *)
Definition lower_ascii (c : ascii) : ascii :=
  let n := nat_of_ascii c in
  if (65 <=? n)%nat && (n <=? 90)%nat then ascii_of_nat (n + 32) else c.

Fixpoint toLowerCase (s : string) : string :=
  match s with
  | EmptyString => EmptyString
  | String c r => String (lower_ascii c) (toLowerCase r)
  end.

(** [path.join(a, b)], kept symbolic (no normalisation of [..]). *)
Definition path_join (a b : string) : string := a +:+ "/" +:+ b.

(** ** Records of the data model *)

(** Modelled from the spec: the interface [iTenant]
    (interfaces/tenant.interface.ts is not among the sources).  The fields
    are those of the TenantRecord of the data model, which are also the ones
    [createTenant] inserts. *)
Module iTenant.
Record t := mk {
  id : nat;
  name : string;
  status : string;
  subdomain : string;
  dbName : string }.
End iTenant.

(** Modelled from the spec: the interface [IMigration]
    (interfaces/migration.interface.ts is not among the sources): a
    migration unit with its name/file identifier.  The two fields are the two
    the code reads, [migrationFile.file || migrationFile.name]. *)
Module IMigration.
Record t := mk { file : option string; name : option string }.
End IMigration.

#[global] Instance iTenant_eq_dec : EqDecision iTenant.t.
Proof. solve_decision. Defined.
#[global] Instance IMigration_eq_dec : EqDecision IMigration.t.
Proof. solve_decision. Defined.

(** The part of [Knex.Config] the class reads or overrides. *)
Record KnexConfig := mkConfig {
  database : string;               (* connection.database *)
  migrations_directory : string }. (* migrations.directory *)

(** [{ ...config, connection: { ...config.connection, database } }] *)
Definition with_database (c : KnexConfig) (db : string) : KnexConfig :=
  mkConfig db (migrations_directory c).

(** A knex instance; a value of type [Knex] is its index in [knexes]. *)
Record KnexInstance := mkKnex { config : KnexConfig; destroyed : bool }.

(** One physical database: the applied-ledger, the tenant registry table and
    the record of seed units that ran. *)
Record Database := mkDatabase {
  ledger : list string;
  Tenants : list iTenant.t;
  seeded : list string }.

(** A model class is a module-level object: [import(path)] evaluates a
    module once and gives the same exports every time after.  A class is
    identified by the module path and the export name. *)
Definition ModelClass : Type := string * string.

Inductive Level := LOG | WARN | ERROR.
Inductive Payload :=
  | PNone
  | PThrown (e : Thrown)
  | PMigrations (l : list IMigration.t)
  | PRef (r : JsRef)
  | PStr (s : string).
Record LogEntry := mkLog { level : Level; text : string; payload : Payload }.

#[global] Instance JsRef_eq_dec : EqDecision JsRef.
Proof. solve_decision. Defined.
#[global] Instance Level_eq_dec : EqDecision Level.
Proof. solve_decision. Defined.
#[global] Instance Payload_eq_dec : EqDecision Payload.
Proof. solve_decision. Defined.
#[global] Instance LogEntry_eq_dec : EqDecision LogEntry.
Proof. solve_decision. Defined.

Inductive Layout := SingleDirectory | SystemTenantSplit.

(** The fields of a [MultiTenantKnex] instance.  The single-directory variant
    names them [knexConfig], [mainKnex] and [modelsPath]; there both configs,
    both handles and both paths coincide. *)
Record MultiTenantKnex := mkThis {
  layout : Layout;
  systemKnexConfig : KnexConfig;
  tenantKnexConfig : KnexConfig;
  systemKnex : nat;
  tenantKnex : nat;
  systemModelsPath : string;
  tenantModelsPath : string;
  tenantConnections : list (string * nat);
  tenantORMs : list (string * nat);
  mainORM : nat;
  currentORM : JsRef;
  tenantSeedRoute : string }.

(** Everything outside the instance that its methods read or change: the
    knex instances made so far, the binding objects ([orm = {}], by
    identity), the connection each model class is bound to ([Model.knex] is a
    static of the class), the binding each class was last handed in
    [associate], the physical databases and the console. *)
Record World := mkWorld {
  knexes : list KnexInstance;
  orms : list (list (string * ModelClass));
  class_knex : gmap ModelClass nat;
  class_assoc : gmap ModelClass nat;
  databases : gmap string Database;
  console : list LogEntry }.

Record State := mkState { this : MultiTenantKnex; world : World }.

(** An export of a model module: a model class, with or without an
    [associate] hook. *)
Record ModelExport := mkExport { export_name : string; has_associate : bool }.

(** What the surroundings decide: the files of a directory
    ([fs.readdirSync], and [fs.readdir] for seeds, which may fail), what a
    module exports, the ordered migration units of a migrations directory,
    and which operations of the storage layer fail with which value
    (a unit's [up] and a seed per database, the registry insert,
    [CREATE DATABASE]). *)

Record Env := mkEnv {
  readdirSync : string → list string;
  module_exports : string → list ModelExport;
  readdir_seeds : string → option (list string);
  exports_seed : string → bool;
  seed_fault : string → string → option Thrown;
  migration_units : string → list string;
  up_fault : string → string → option Thrown;
  insert_fault : string → string → option Thrown;
  create_database_fault : string → option Thrown }.

(** ** Record updates *)

Definition set_tenantConnections (f : list (string * nat) → list (string * nat))
  (t : MultiTenantKnex) : MultiTenantKnex :=
  mkThis (layout t) (systemKnexConfig t) (tenantKnexConfig t) (systemKnex t)
    (tenantKnex t) (systemModelsPath t) (tenantModelsPath t)
    (f (tenantConnections t)) (tenantORMs t) (mainORM t) (currentORM t)
    (tenantSeedRoute t).

Definition set_tenantORMs (f : list (string * nat) → list (string * nat))
  (t : MultiTenantKnex) : MultiTenantKnex :=
  mkThis (layout t) (systemKnexConfig t) (tenantKnexConfig t) (systemKnex t)
    (tenantKnex t) (systemModelsPath t) (tenantModelsPath t)
    (tenantConnections t) (f (tenantORMs t)) (mainORM t) (currentORM t)
    (tenantSeedRoute t).

Definition set_mainORM (o : nat) (t : MultiTenantKnex) : MultiTenantKnex :=
  mkThis (layout t) (systemKnexConfig t) (tenantKnexConfig t) (systemKnex t)
    (tenantKnex t) (systemModelsPath t) (tenantModelsPath t)
    (tenantConnections t) (tenantORMs t) o (currentORM t)
    (tenantSeedRoute t).

Definition set_currentORM (r : JsRef) (t : MultiTenantKnex) : MultiTenantKnex :=
  mkThis (layout t) (systemKnexConfig t) (tenantKnexConfig t) (systemKnex t)
    (tenantKnex t) (systemModelsPath t) (tenantModelsPath t)
    (tenantConnections t) (tenantORMs t) (mainORM t) r
    (tenantSeedRoute t).

Definition set_knexes (f : list KnexInstance → list KnexInstance) (w : World)
  : World :=
  mkWorld (f (knexes w)) (orms w) (class_knex w) (class_assoc w) (databases w)
    (console w).

Definition set_orms
  (f : list (list (string * ModelClass)) → list (list (string * ModelClass)))
  (w : World) : World :=
  mkWorld (knexes w) (f (orms w)) (class_knex w) (class_assoc w) (databases w)
    (console w).

Definition set_class_knex (f : gmap ModelClass nat → gmap ModelClass nat)
  (w : World) : World :=
  mkWorld (knexes w) (orms w) (f (class_knex w)) (class_assoc w) (databases w)
    (console w).

Definition set_class_assoc (f : gmap ModelClass nat → gmap ModelClass nat)
  (w : World) : World :=
  mkWorld (knexes w) (orms w) (class_knex w) (f (class_assoc w)) (databases w)
    (console w).

Definition set_databases (f : gmap string Database → gmap string Database)
  (w : World) : World :=
  mkWorld (knexes w) (orms w) (class_knex w) (class_assoc w) (f (databases w))
    (console w).

Definition set_console (f : list LogEntry → list LogEntry) (w : World)
  : World :=
  mkWorld (knexes w) (orms w) (class_knex w) (class_assoc w) (databases w)
    (f (console w)).

Definition on_this (f : MultiTenantKnex → MultiTenantKnex) (s : State) : State :=
  mkState (f (this s)) (world s).

Definition on_world (f : World → World) (s : State) : State :=
  mkState (this s) (f (world s)).

(** ** The monad of methods: state, plus a thrown value or a result

    State changes made before a throw stay (JavaScript has no rollback). *)

Inductive Res (A : Type) :=
  | Ok (a : A)
  | Throw (e : Thrown).
Arguments Ok {A} a.
Arguments Throw {A} e.

Definition M (A : Type) : Type := State → Res A * State.

Definition ret {A} (a : A) : M A := λ s, (Ok a, s).

Definition throw {A} (e : Thrown) : M A := λ s, (Throw e, s).

Definition bind {A B} (m : M A) (k : A → M B) : M B :=
  λ s, match m s with
       | (Ok a, s') => k a s'
       | (Throw e, s') => (Throw e, s')
       end.

(** [try { m } catch (error) { h error }] *)
Definition try_catch {A} (m : M A) (h : Thrown → M A) : M A :=
  λ s, match m s with
       | (Ok a, s') => (Ok a, s')
       | (Throw e, s') => h e s'
       end.

Definition gets {A} (f : State → A) : M A := λ s, (Ok (f s), s).

Definition modify (f : State → State) : M unit := λ s, (Ok tt, f s).

Declare Scope js_scope.
Delimit Scope js_scope with js.
Notation "'let*' x ':=' m 'in' k" := (bind m (λ x, k))
  (at level 61, x pattern, m at next level, k at level 200,
   right associativity) : js_scope.
Notation "m ';;' k" := (bind m (λ _, k))
  (at level 100, k at level 200, right associativity) : js_scope.
Open Scope js_scope.

(** [for (const x of l) { await f(x) }] *)
Fixpoint for_of {A} (l : list A) (f : A → M unit) : M unit :=
  match l with
  | [] => ret tt
  | x :: r => f x ;; for_of r f
  end.

(** Calling an [async] function never throws: it yields a promise that is
    fulfilled or rejected.  [settle] is that promise once it has settled. *)
Definition settle {A} (m : M A) : M (Res A) :=
  λ s, match m s with
       | (Ok a, s') => (Ok (Ok a), s')
       | (Throw e, s') => (Ok (Throw e), s')
       end.

(** [l.map(f)] where every call of [f] runs to its end and leaves a settled
    promise. *)
Fixpoint map_settled {A B} (l : list A) (f : A → M B) : M (list (Res B)) :=
  match l with
  | [] => ret []
  | x :: r =>
      let* p := settle (f x) in
      let* ps := map_settled r f in
      ret (p :: ps)
  end.

(** [await Promise.all(ps)]: the values when every promise is fulfilled,
    otherwise the rejection (the first one in the list stands for the first
    one in time). *)
Fixpoint Promise_all {A} (ps : list (Res A)) : M (list A) :=
  match ps with
  | [] => ret []
  | Ok a :: r => let* vs := Promise_all r in ret (a :: vs)
  | Throw e :: _ => throw e
  end.

Definition console_write (l : Level) (t : string) (p : Payload) : M unit :=
  modify (on_world (set_console (λ c, c ++ [mkLog l t p]))).

(** ** The collaborators: driver, storage layer, model classes

    What the class relies on.  A knex instance is created without connecting
    and is dead once destroyed.  [migrate.list()] compares the units of the
    migrations directory with the ledger of the database; [migrate.up] runs
    one unit and records it in the ledger when it has succeeded.  The
    registry table refuses a second row of the same name with SQLSTATE 23505.
    [Model.knex(k)] sets the connection of the class and [Model.query()]
    uses it. *)

Section Methods.
Variable env : Env.

(** [knex(config)]: a new instance (connections are opened lazily). *)
Definition knex (c : KnexConfig) : M nat :=
  let* h := gets (λ s, length (knexes (world s))) in
  modify (on_world (set_knexes (λ l, l ++ [mkKnex c false]))) ;;
  ret h.

(** [instance.destroy()] *)
Definition destroy (h : nat) : M unit :=
  modify (on_world (set_knexes (alter (λ k, mkKnex (config k) true) h))).

(** Reaching the database behind an instance: fails on a destroyed instance
    and when the database does not exist. *)
Definition acquire (h : nat) : M (KnexConfig * Database) :=
  let* w := gets world in
  match knexes w !! h with
  | None => throw (Error "not a knex instance")
  | Some k =>
      if destroyed k then throw (Error "Unable to acquire a connection")
      else match databases w !! database (config k) with
           | None => throw (DatabaseError "database does not exist" "3D000")
           | Some d => ret (config k, d)
           end
  end.

Definition store (dbn : string) (d : Database) : M unit :=
  modify (on_world (set_databases (<[dbn := d]>))).

(** The units of the directory that the ledger does not list, in the
    directory's order. *)
Definition pending_of (units applied : list string) : list string :=
  filter (λ u, u ∉ applied) units.

(** [connection.migrate.list()]: the pair [completed, pending]. *)
Definition migrate_list (h : nat)
  : M (list IMigration.t * list IMigration.t) :=
  let* (c, d) := acquire h in
  ret (map (λ n, IMigration.mk None (Some n)) (ledger d),
       map (λ n, IMigration.mk (Some n) None)
         (pending_of (migration_units env (migrations_directory c))
            (ledger d))).

(** One unit's [up]: on success the ledger records it, on failure the thrown
    value comes out and the ledger is as before. *)
Definition run_up (dbn : string) (d : Database) (u : string) : M unit :=
  match up_fault env dbn u with
  | Some e => throw e
  | None => store dbn (mkDatabase (ledger d ++ [u]) (Tenants d) (seeded d))
  end.

(** [connection.migrate.up({ name })]: the named unit when it is not applied
    yet, the next pending unit when no name is given. *)
Definition migrate_up (h : nat) (name : option string) : M unit :=
  let* (c, d) := acquire h in
  let units := migration_units env (migrations_directory c) in
  match name with
  | Some n =>
      if bool_decide (n ∈ ledger d) then ret tt
      else if bool_decide (n ∈ units) then run_up (database c) d n
      else throw (Error ("Migration " +:+ n +:+ " not found."))
  | None =>
      match pending_of units (ledger d) with
      | [] => ret tt
      | u :: _ => run_up (database c) d u
      end
  end.

(** [seederModule.seed(connection)] *)
Definition run_seed (h : nat) (seedPath : string) : M unit :=
  let* (c, d) := acquire h in
  match seed_fault env (database c) seedPath with
  | Some e => throw e
  | None =>
      store (database c)
        (mkDatabase (ledger d) (Tenants d) (seeded d ++ [seedPath]))
  end.

(** [select * from Tenants] *)
Definition select_Tenants (h : nat) : M (list iTenant.t) :=
  let* (_, d) := acquire h in
  ret (Tenants d).

(** Inserting a registry row through instance [h]; the table has a
    uniqueness constraint on [name] (the migration of the README), which
    [createTenant] sets to the subdomain. *)
Definition insert_Tenant (h : nat) (name status subdomain dbName : string)
  : M iTenant.t :=
  let* (c, d) := acquire h in
  match insert_fault env (database c) name with
  | Some e => throw e
  | None =>
      if bool_decide (name ∈ map iTenant.name (Tenants d)) then
        throw (DatabaseError
                 "duplicate key value violates unique constraint" "23505")
      else
        let row :=
          iTenant.mk (S (length (Tenants d))) name status subdomain dbName in
        store (database c)
          (mkDatabase (ledger d) (Tenants d ++ [row]) (seeded d)) ;;
        ret row
  end.

(** [knex.raw("CREATE DATABASE " + dbn)] *)
Definition create_database (h : nat) (dbn : string) : M unit :=
  let* _ := acquire h in
  match create_database_fault env dbn with
  | Some e => throw e
  | None =>
      let* w := gets world in
      match databases w !! dbn with
      | Some _ => throw (DatabaseError "database already exists" "42P04")
      | None => store dbn (mkDatabase [] [] [])
      end
  end.

(** [const orm = {}] *)
Definition new_object : M nat :=
  let* o := gets (λ s, length (orms (world s))) in
  modify (on_world (set_orms (λ l, l ++ [[]]))) ;;
  ret o.

(** [orm[modelName] = cls] *)
Definition orm_set (o : nat) (modelName : string) (cls : ModelClass)
  : M unit :=
  modify (on_world (set_orms (alter (λ props, obj_set props modelName cls) o))).

(** [cls.knex(connection)]: sets the connection of the class itself. *)
Definition Model_knex (cls : ModelClass) (h : nat) : M unit :=
  modify (on_world (set_class_knex (<[cls := h]>))).

(** [cls.associate(orm)]: the class wires its associations through the
    binding it is given. *)
Definition associate (cls : ModelClass) (o : nat) : M unit :=
  modify (on_world (set_class_assoc (<[cls := o]>))).

Definition declares_associate (cls : ModelClass) : bool :=
  match list_find (λ ex, export_name ex = cls.2) (module_exports env cls.1) with
  | Some (_, ex) => has_associate ex
  | None => false
  end.

(** [orm[modelName].query()]: the knex instance the query will run on. *)
Definition Model_query (o : nat) (modelName : string) : M nat :=
  let* w := gets world in
  match orms w !! o ≫= λ props, own_get props modelName with
  | None =>
      throw (TypeError "Cannot read properties of undefined (reading 'query')")
  | Some cls =>
      match class_knex w !! cls with
      | None => throw (Error "no database connection available for a query")
      | Some h => ret h
      end
  end.

(** ** The class

    One definition per method, under the method's name.  Where the two
    variants differ the definition goes by the [layout] of the instance. *)

(** [file.slice(-9)] *)
Definition last9 (s : string) : string :=
  substring (String.length s - 9) 9 s.

(** [file.indexOf(".") !== 0 && file.slice(-9) === ".model.ts"
     && file.indexOf(".test.ts") === -1] *)
Definition is_model_file (file : string) : bool :=
  negb (bool_decide (index 0 "." file = Some 0))
  && bool_decide (last9 file = ".model.ts")
  && bool_decide (index 0 ".test.ts" file = None).

Definition _getModelFiles (dirPath : string) : list string :=
  List.filter is_model_file (readdirSync env dirPath).

(** The model files are imported in the order of the directory listing (the
    code awaits the imports together).  Every export is put into the new
    object and bound to [connection]; then every class of the object that
    has an [associate] hook is handed the object.  The single-directory
    variant takes [modelsPath] from the instance; the log line is the split
    variant's. *)
Definition _importModels (connection : nat) (modelsPath : string) : M nat :=
  let* orm := new_object in
  let modelFiles := _getModelFiles modelsPath in
  let* lay := gets (λ s, layout (this s)) in
  (match lay with
   | SystemTenantSplit => console_write LOG "hey" (PStr modelsPath)
   | SingleDirectory => ret tt
   end) ;;
  for_of modelFiles (λ file,
    let path := path_join modelsPath file in
    for_of (module_exports env path) (λ ex,
      let modelName := export_name ex in
      orm_set orm modelName (path, modelName) ;;
      Model_knex (path, modelName) connection)) ;;
  let* keys := gets (λ s, obj_keys (default [] (orms (world s) !! orm))) in
  for_of keys (λ modelName,
    let* modelClass :=
      gets (λ s, orms (world s) !! orm ≫= λ props, own_get props modelName) in
    match modelClass with
    | Some cls => if declares_associate cls then associate cls orm else ret tt
    | None => ret tt
    end) ;;
  ret orm.

Definition buildMainORM : M unit :=
  let* c := gets (λ s, systemKnex (this s)) in
  let* p := gets (λ s, systemModelsPath (this s)) in
  let* orm := _importModels c p in
  modify (on_this (set_mainORM orm)).

(** [if (this.tenantConnections[subdomain])
       this.tenantConnections[subdomain].destroy()]: an inherited member is
    truthy and has no [destroy]. *)
Definition _createTenantConnection (subdomain : string) : M nat :=
  let* old := gets (λ s, js_get (tenantConnections (this s)) subdomain) in
  (match old with
   | Own h => destroy h
   | Inherited _ =>
       throw (TypeError
                "this.tenantConnections[subdomain].destroy is not a function")
   | Missing => ret tt
   end) ;;
  let* c := gets (λ s, tenantKnexConfig (this s)) in
  let* tenantConnection := knex (with_database c ("tenant_" +:+ subdomain)) in
  modify (on_this (set_tenantConnections
                     (λ t, obj_set t subdomain tenantConnection))) ;;
  ret tenantConnection.

(** Returns [null] when nothing is pending, otherwise the function that
    runs the pending units one after the other. *)
Definition _initializeMigrations (connection : nat) : M (option (M unit)) :=
  try_catch
    (let* migrationFiles := migrate_list connection in
     let pendingMigrations := migrationFiles.2 in
     console_write LOG "pendingMigrations v1.1.0"
       (PMigrations pendingMigrations) ;;
     if (length pendingMigrations =? 0)%nat then
       console_write LOG
         "No new migrations to run. Migrations are already up to date."
         PNone ;;
       ret None
     else
       ret (Some
              (for_of pendingMigrations (λ migrationFile,
                 migrate_up connection
                   (js_or (IMigration.file migrationFile)
                      (IMigration.name migrationFile))))))
    (λ error,
      (if instanceof_Error error
       then console_write ERROR "Error initializing migrations:"
              (PThrown error)
       else console_write ERROR "Unexpected error initializing migrations:"
              (PThrown error)) ;;
      throw error).

(** Returns the function that runs, one after the other, the [seed]
    functions found in the directory. *)
Definition _initializeSeeders (connection : nat) (globPattern : string)
  : M (M unit) :=
  try_catch
    (let seedDirectory := globPattern in
     let* seedFiles :=
       match readdir_seeds env seedDirectory with
       | Some l => ret l
       | None => throw (mkThrown true "ENOENT: no such file or directory"
                          (Some "ENOENT"))
       end in
     let seeders :=
       omap (λ seedFile,
               let seedPath := path_join seedDirectory seedFile in
               if exports_seed env seedPath
               then Some (run_seed connection seedPath) else None)
         seedFiles in
     ret (for_of seeders (λ seeder, seeder)))
    (λ error,
      console_write ERROR "Error initializing seeders:" (PThrown error) ;;
      throw error).

Definition getDbTenants : M (list iTenant.t) :=
  let* c := gets (λ s, systemKnex (this s)) in
  select_Tenants c.

(** On [this.mainKnex] in the single-directory variant, on
    [this.tenantKnex] in the split one. *)
Definition migrateMainDb : M unit :=
  let* c := gets (λ s, tenantKnex (this s)) in
  let* migrateMainDb := _initializeMigrations c in
  try_catch
    (match migrateMainDb with Some run => run | None => ret tt end)
    (λ error,
      (if instanceof_Error error
       then console_write ERROR "Error initializing migrations:"
              (PThrown error)
       else console_write ERROR "Unexpected error initializing migrations:"
              (PThrown error)) ;;
      throw error).

(** The body of the loop over the migration (or seed) functions. *)
Definition tolerate (what : string) (run : M unit) : M unit :=
  try_catch run
    (λ error,
      if instanceof_Error error
      then console_write WARN what (PThrown error)
      else throw error).

(** [tenants.map(async (tenant) => ...)] calls [_createTenantConnection]
    for every tenant before any of the plans is there (the callback runs up
    to its first [await]); then the plans are computed, then
    [Promise.all] is awaited and the functions are run in turn. *)
Definition migrateAllTenants : M unit :=
  try_catch
    (let* tenants := getDbTenants in
     let* connections :=
       map_settled tenants (λ tenant,
         _createTenantConnection (iTenant.subdomain tenant)) in
     let* migrationPromises :=
       map_settled connections (λ tenantConnection,
         match tenantConnection with
         | Ok c => _initializeMigrations c
         | Throw e => throw e
         end) in
     let* migrationFunctions := Promise_all migrationPromises in
     for_of migrationFunctions (λ migrate,
       match migrate with
       | Some run => tolerate "Migration warning for tenant" run
       | None => ret tt
       end) ;;
     console_write LOG "All tenant migrations completed successfully." PNone)
    (λ error,
      console_write ERROR "Error migrating all tenants:" (PThrown error) ;;
      throw error).

(** As [migrateAllTenants]; the test [if (seed)] is always true, a
    function being truthy. *)
Definition seedsAllTenants : M unit :=
  try_catch
    (let* tenants := getDbTenants in
     let* pathSeeds :=
       gets (λ s, path_join (tenantModelsPath (this s))
                    (tenantSeedRoute (this s))) in
     let* connections :=
       map_settled tenants (λ tenant,
         _createTenantConnection (iTenant.subdomain tenant)) in
     let* seedsPromises :=
       map_settled connections (λ tenantConnection,
         match tenantConnection with
         | Ok c => _initializeSeeders c pathSeeds
         | Throw e => throw e
         end) in
     let* seedsFunctions := Promise_all seedsPromises in
     for_of seedsFunctions (λ seed,
       tolerate "Seed warning for tenant" seed) ;;
     console_write LOG "All tenant seeds completed successfully." PNone)
    (λ error,
      console_write ERROR "Error seeding all tenants:" (PThrown error) ;;
      throw error).

(** The split variant has the call of [migrateMainDb] commented out. *)
Definition migrate : M unit :=
  let* lay := gets (λ s, layout (this s)) in
  (match lay with
   | SingleDirectory => migrateMainDb
   | SystemTenantSplit => ret tt
   end) ;;
  migrateAllTenants ;;
  seedsAllTenants.

Definition createTenant (subdomain : string) : M iTenant.t :=
  let subdomain := toLowerCase subdomain in
  let* tenant :=
    try_catch
      (let* orm := gets (λ s, mainORM (this s)) in
       let* k := Model_query orm "Tenant" in
       insert_Tenant k subdomain "active" subdomain ("tenant_" +:+ subdomain))
      (λ error,
        console_write ERROR "" (PThrown error) ;;
        if bool_decide (code error = Some "23505")
        then throw (Error "Subdomain already exists")
        else throw (Error "Something went wrong")) in
  let* mainKnex := gets (λ s, systemKnex (this s)) in
  create_database mainKnex ("tenant_" +:+ subdomain) ;;
  let* tenantConnection := _createTenantConnection subdomain in
  let* pathSeeds :=
    gets (λ s, path_join (tenantModelsPath (this s))
                 (tenantSeedRoute (this s))) in
  let* migrationTenant := _initializeMigrations tenantConnection in
  (match migrationTenant with Some run => run | None => ret tt end) ;;
  let* seedersTenant := _initializeSeeders tenantConnection pathSeeds in
  seedersTenant ;;
  let* p := gets (λ s, tenantModelsPath (this s)) in
  let* orm := _importModels tenantConnection p in
  modify (on_this (set_tenantORMs (λ t, obj_set t subdomain orm))) ;;
  ret tenant.

Definition buildTenantConnections : M unit :=
  let* tenants := getDbTenants in
  for_of tenants (λ tenant,
    _createTenantConnection (iTenant.subdomain tenant) ;; ret tt).

(** [for (const subdomain in this.tenantConnections)]: the own keys, in
    insertion order. *)
Definition buildTenantORMs : M unit :=
  let* n := gets (λ s, length (obj_keys (tenantConnections (this s)))) in
  (if (n =? 0)%nat then buildTenantConnections else ret tt) ;;
  let* keys := gets (λ s, obj_keys (tenantConnections (this s))) in
  for_of keys (λ subdomain,
    let* c := gets (λ s, own_get (tenantConnections (this s)) subdomain) in
    let* p := gets (λ s, tenantModelsPath (this s)) in
    match c with
    | Some c =>
        let* orm := _importModels c p in
        modify (on_this (set_tenantORMs (λ t, obj_set t subdomain orm)))
    | None => ret tt
    end).

Definition setCurrentORM (subdomain : string) : M unit :=
  let* found := gets (λ s, js_get (tenantORMs (this s)) subdomain) in
  if negb (truthy found) then
    throw (Error ("No tenant with subdomain " +:+ subdomain))
  else
    modify (on_this (set_currentORM (member_ref found))) ;;
    let* cur := gets (λ s, currentORM (this s)) in
    console_write LOG "currentORM" (PRef cur).

Definition setCurrentTenantConnection (subdomain : string) : M unit :=
  let* found := gets (λ s, js_get (tenantORMs (this s)) subdomain) in
  if negb (truthy found) then
    throw (Error ("No tenant with subdomain " +:+ subdomain))
  else
    let* tenantConnection := _createTenantConnection subdomain in
    let* p := gets (λ s, tenantModelsPath (this s)) in
    let* orm := _importModels tenantConnection p in
    modify (on_this (set_tenantORMs (λ t, obj_set t subdomain orm))) ;;
    let* stored := gets (λ s, js_get (tenantORMs (this s)) subdomain) in
    modify (on_this (set_currentORM (member_ref stored))) ;;
    let* cur := gets (λ s, currentORM (this s)) in
    console_write LOG "currentORM" (PRef cur).

Definition setCurrentMainConnection : M unit :=
  let* c := gets (λ s, systemKnex (this s)) in
  let* p := gets (λ s, systemModelsPath (this s)) in
  let* orm := _importModels c p in
  modify (on_this (set_mainORM orm)) ;;
  let* main := gets (λ s, mainORM (this s)) in
  modify (on_this (set_currentORM (Ref main))).

Definition getCurrentORM : M JsRef :=
  let* cur := gets (λ s, currentORM (this s)) in
  if negb (ref_truthy cur) then throw (Error "No current db set")
  else ret cur.

End Methods.

(** [new MultiTenantKnex(knexConfig, modelsPath)] *)
Definition constructor (knexConfig : KnexConfig) (modelsPath : string)
  (w : World) : State :=
  let main := length (orms w) in
  let mainKnex := length (knexes w) in
  mkState
    (mkThis SingleDirectory knexConfig knexConfig mainKnex mainKnex
       modelsPath modelsPath [] [] main (Ref main) "../../knex/seeds")
    (set_knexes (λ l, l ++ [mkKnex knexConfig false])
       (set_orms (λ l, l ++ [[]]) w)).

(** [new MultiTenantKnex(systemKnexConfig, tenantKnexConfig,
                         systemModelsPath, tenantModelsPath)] *)
Definition constructor_split (systemKnexConfig tenantKnexConfig : KnexConfig)
  (systemModelsPath tenantModelsPath : string) (w : World) : State :=
  let main := length (orms w) in
  let sys := length (knexes w) in
  mkState
    (mkThis SystemTenantSplit systemKnexConfig tenantKnexConfig sys (S sys)
       systemModelsPath tenantModelsPath [] [] main (Ref main)
       "../../../knex/seeds/tenant")
    (set_knexes (λ l, l ++ [mkKnex systemKnexConfig false;
                            mkKnex tenantKnexConfig false])
       (set_orms (λ l, l ++ [[]]) w)).

(** ** Derived notions used in the statements *)

(** The classes [_importModels] meets, in the order it meets them: every
    export of every model file of the directory. *)
Definition model_classes (env : Env) (modelsPath : string)
  : list (string * ModelClass) :=
  concat
    (map (λ file,
            map (λ ex, (export_name ex,
                        (path_join modelsPath file, export_name ex)))
              (module_exports env (path_join modelsPath file)))
       (_getModelFiles env modelsPath)).

(** One turn of the first loop of [_importModels]. *)
Definition bind_step (connection o : nat) (s : State)
  (nc : string * ModelClass) : State :=
  on_world (set_class_knex (<[nc.2 := connection]>))
    (on_world (set_orms (alter (λ props, obj_set props nc.1 nc.2) o)) s).

(** One turn of its second loop. *)
Definition wire_step (env : Env) (o : nat) (s : State) (modelName : string)
  : State :=
  match orms (world s) !! o ≫= λ props, own_get props modelName with
  | Some cls =>
      if declares_associate env cls
      then on_world (set_class_assoc (<[cls := o]>)) s
      else s
  | None => s
  end.

Definition announce (modelsPath : string) (s : State) : State :=
  match layout (this s) with
  | SystemTenantSplit =>
      on_world (set_console (λ c, c ++ [mkLog LOG "hey" (PStr modelsPath)])) s
  | SingleDirectory => s
  end.

(** The state [_importModels] leaves behind. *)
Definition imported (env : Env) (connection : nat) (modelsPath : string)
  (s : State) : State :=
  let o := length (orms (world s)) in
  let s1 := announce modelsPath (on_world (set_orms (λ l, l ++ [[]])) s) in
  let s2 := foldl (bind_step connection o) s1 (model_classes env modelsPath) in
  foldl (wire_step env o) s2 (obj_keys (default [] (orms (world s2) !! o))).

(** The binding object built from a directory. *)
Definition binding_of (env : Env) (modelsPath : string)
  : list (string * ModelClass) :=
  foldl (λ props nc, obj_set props nc.1 nc.2) [] (model_classes env modelsPath).

(** The connection a query through [orm[modelName]] goes to, and the database
    behind it. *)
Definition routes_to (w : World) (o : nat) (modelName : string) : option nat :=
  props ← orms w !! o; cls ← own_get props modelName; class_knex w !! cls.

Definition database_of (w : World) (h : nat) : option string :=
  k ← knexes w !! h; Some (database (config k)).

(** ** Invariants of the methods *)

(** [m] keeps [I]; what it returns satisfies [R]. *)
Definition inv {A} (I : State → Prop) (m : M A) (R : A → Prop) : Prop :=
  ∀ s, I s → I (m s).2 ∧ ∀ a, (m s).1 = Ok a → R a.

Definition pres {A} (I : State → Prop) (m : M A) : Prop :=
  inv I m (λ _, True).

Definition fulfilled {A} (R : A → Prop) (r : Res A) : Prop :=
  match r with Ok a => R a | Throw _ => True end.

Definition keeps_if_any (I : State → Prop) (f : option (M unit)) : Prop :=
  match f with Some run => pres I run | None => True end.

(** [createTenant] in two parts: the registry insert with its error mapping,
    and everything after it. *)
Definition register_tenant (env : Env) (subdomain : string) : M iTenant.t :=
  try_catch
    (let* orm := gets (λ s, mainORM (this s)) in
     let* k := Model_query orm "Tenant" in
     insert_Tenant env k subdomain "active" subdomain
       ("tenant_" +:+ subdomain))
    (λ error,
      console_write ERROR "" (PThrown error) ;;
      if bool_decide (code error = Some "23505")
      then throw (Error "Subdomain already exists")
      else throw (Error "Something went wrong")).

Definition provision (env : Env) (subdomain : string) (tenant : iTenant.t)
  : M iTenant.t :=
  let* mainKnex := gets (λ s, systemKnex (this s)) in
  create_database env mainKnex ("tenant_" +:+ subdomain) ;;
  let* tenantConnection := _createTenantConnection subdomain in
  let* pathSeeds :=
    gets (λ s, path_join (tenantModelsPath (this s))
                 (tenantSeedRoute (this s))) in
  let* migrationTenant := _initializeMigrations env tenantConnection in
  (match migrationTenant with Some run => run | None => ret tt end) ;;
  let* seedersTenant := _initializeSeeders env tenantConnection pathSeeds in
  seedersTenant ;;
  let* p := gets (λ s, tenantModelsPath (this s)) in
  let* orm := _importModels env tenantConnection p in
  modify (on_this (set_tenantORMs (λ t, obj_set t subdomain orm))) ;;
  ret tenant.

(** The state after the last three statements of
    [setCurrentTenantConnection]. *)
Definition switched (subdomain : string) (orm : nat) (s : State) : State :=
  on_world (set_console (λ c, c ++ [mkLog LOG "currentORM" (PRef (Ref orm))]))
    (on_this (set_currentORM (Ref orm))
       (on_this (set_tenantORMs (λ t, obj_set t subdomain orm)) s)).

(** ** Reachable states *)

Inductive Op :=
  | OBuildMainORM
  | OCreateTenant (name : string)
  | OMigrate
  | OMigrateMainDb
  | OMigrateAllTenants
  | OSeedsAllTenants
  | OGetDbTenants
  | OBuildTenantConnections
  | OBuildTenantORMs
  | OSetCurrentORM (subdomain : string)
  | OSetCurrentTenantConnection (subdomain : string)
  | OSetCurrentMainConnection
  | OGetCurrentORM.

Definition call (env : Env) (op : Op) : M unit :=
  match op with
  | OBuildMainORM => buildMainORM env
  | OCreateTenant name => createTenant env name ;; ret tt
  | OMigrate => migrate env
  | OMigrateMainDb => migrateMainDb env
  | OMigrateAllTenants => migrateAllTenants env
  | OSeedsAllTenants => seedsAllTenants env
  | OGetDbTenants => getDbTenants ;; ret tt
  | OBuildTenantConnections => buildTenantConnections
  | OBuildTenantORMs => buildTenantORMs env
  | OSetCurrentORM subdomain => setCurrentORM subdomain
  | OSetCurrentTenantConnection subdomain =>
      setCurrentTenantConnection env subdomain
  | OSetCurrentMainConnection => setCurrentMainConnection env
  | OGetCurrentORM => getCurrentORM ;; ret tt
  end.

(** States an instance can be in: freshly constructed (either variant, in
    any surroundings), then any public method called any number of times,
    whatever it returns or throws. *)
Inductive reachable : State → Prop :=
  | reach_constructor knexConfig modelsPath w :
      reachable (constructor knexConfig modelsPath w)
  | reach_constructor_split systemKnexConfig tenantKnexConfig
      systemModelsPath tenantModelsPath w :
      reachable (constructor_split systemKnexConfig tenantKnexConfig
                   systemModelsPath tenantModelsPath w)
  | reach_call env op s : reachable s → reachable (call env op s).2.

(** An operation of the storage layer changes databases and nothing else. *)
Definition same_but_databases (s s' : State) : Prop :=
  this s' = this s
  ∧ knexes (world s') = knexes (world s)
  ∧ orms (world s') = orms (world s)
  ∧ class_knex (world s') = class_knex (world s)
  ∧ class_assoc (world s') = class_assoc (world s)
  ∧ console (world s') = console (world s).

(** No database disappears and no registry row is lost. *)
Definition registry_kept (s s' : State) : Prop :=
  ∀ dbn d, databases (world s) !! dbn = Some d →
    ∃ d', databases (world s') !! dbn = Some d'
          ∧ ∀ row, row ∈ Tenants d → row ∈ Tenants d'.

(** The state a successful [_createTenantConnection] leaves behind. *)
Definition connected (subdomain : string) (s : State) : State :=
  let w1 :=
    match own_get (tenantConnections (this s)) subdomain with
    | Some h => set_knexes (alter (λ k, mkKnex (config k) true) h) (world s)
    | None => world s
    end in
  mkState
    (set_tenantConnections
       (λ t, obj_set t subdomain (length (knexes (world s)))) (this s))
    (set_knexes
       (λ l, l ++ [mkKnex (with_database (tenantKnexConfig (this s))
                             ("tenant_" +:+ subdomain)) false]) w1).

(** The active context holds something. *)
Definition context_set (s : State) : Prop :=
  ref_truthy (currentORM (this s)) = true.

(** The connection registry is in order: the handles of the instance are
    valid, every registered handle is live and points at its tenant's
    database, and every live handle the instance made for a tenant is the
    registered one. *)
Record registry_ok (s : State) : Prop := {
  system_valid :
    systemKnex (this s) ≤ tenantKnex (this s) < length (knexes (world s));
  registered_live : ∀ t h,
    own_get (tenantConnections (this s)) t = Some h →
    tenantKnex (this s) < h
    ∧ knexes (world s) !! h
      = Some (mkKnex (with_database (tenantKnexConfig (this s))
                        ("tenant_" +:+ t)) false);
  no_leak : ∀ h k,
    knexes (world s) !! h = Some k → tenantKnex (this s) < h →
    destroyed k = false →
    ∃ t, own_get (tenantConnections (this s)) t = Some h }.

(** ** Applying a plan *)

(** The units of a plan that get applied before the first failure, and that
    failure (unit and thrown value) if there is one. *)
Fixpoint up_prefix (fault : string → option Thrown) (plan : list string)
  : list string * option (string * Thrown) :=
  match plan with
  | [] => ([], None)
  | u :: r =>
      match fault u with
      | Some e => ([], Some (u, e))
      | None => let (applied, failure) := up_prefix fault r in
                (u :: applied, failure)
      end
  end.

Definition outcome (failure : option (string * Thrown)) : Res unit :=
  match failure with Some (_, e) => Throw e | None => Ok tt end.

Definition extend_ledger (d : Database) (applied : list string) : Database :=
  mkDatabase (ledger d ++ applied) (Tenants d) (seeded d).

(** The plan as [migrate.list()] hands it over. *)
Definition as_pending (plan : list string) : list IMigration.t :=
  map (λ n, IMigration.mk (Some n) None) plan.

(** The function [_initializeMigrations] returns for a non-empty plan. *)
Definition apply_plan (env : Env) (connection : nat)
  (pendingMigrations : list IMigration.t) : M unit :=
  for_of pendingMigrations (λ migrationFile,
    migrate_up env connection
      (js_or (IMigration.file migrationFile)
         (IMigration.name migrationFile))).

(** A live connection to an existing database. *)
Definition connects (s : State) (h : nat) (c : KnexConfig) (d : Database)
  : Prop :=
  knexes (world s) !! h = Some (mkKnex c false)
  ∧ databases (world s) !! database c = Some d.


(** ** A small installation, for the examples *)

Definition demo_config : KnexConfig := mkConfig "main" "knex/migrations".

Definition demo_world : World :=
  mkWorld [] [] ∅ ∅ {["main" := mkDatabase [] [] []]} [].

Definition boom : Thrown := Error "boom".

Definition no_fault : string → string → option Thrown := λ _ _, None.

Definition fails_at (dbn unit : string) (e : Thrown)
  : string → string → option Thrown :=
  λ db u, if decide (db = dbn ∧ u = unit) then Some e else None.

(** One models directory for the single-directory variant, a system and a
    tenant directory for the split variant; the given migration units (three
    of them in [demo_env]); no seeds. *)
Definition demo_env_units (units : list string)
  (up_faults : string → string → option Thrown) : Env :=
  mkEnv
    (λ dir,
       if decide (dir = "models")
       then ["user.model.ts"; "tenant.model.ts"; "user.test.ts"]
       else if decide (dir = "models/system") then ["tenant.model.ts"]
       else if decide (dir = "models/tenant") then ["user.model.ts"]
       else [])
    (λ path,
       if decide (path = "models/user.model.ts")
       then [mkExport "User" true]
       else if decide (path = "models/tenant.model.ts")
       then [mkExport "Tenant" false]
       else if decide (path = "models/system/tenant.model.ts")
       then [mkExport "Tenant" false]
       else if decide (path = "models/tenant/user.model.ts")
       then [mkExport "User" true]
       else [])
    (λ _, Some [])
    (λ _, false)
    (λ _ _, None)
    (λ _, units)
    up_faults
    (λ _ _, None)
    (λ _, None).

Definition demo_env (up_faults : string → string → option Thrown) : Env :=
  demo_env_units ["A"; "B"; "C"] up_faults.

(** A fresh single-directory instance. *)
Definition demo_start : State := constructor demo_config "models" demo_world.

(** A fresh split instance. *)
Definition demo_start_split : State :=
  constructor_split demo_config demo_config "models/system" "models/tenant"
    demo_world.

(** ** Letter case *)

Definition is_upper (c : ascii) : bool :=
  (65 <=? nat_of_ascii c)%nat && (nat_of_ascii c <=? 90)%nat.

(** Two characters that are the same letter up to case. *)
Definition same_letter (a b : ascii) : Prop :=
  a = b
  ∨ (is_upper a = true ∧ b = lower_ascii a)
  ∨ (is_upper b = true ∧ a = lower_ascii b).

(** Names that differ only by letter case. *)
Inductive case_variant : string → string → Prop :=
  | case_variant_nil : case_variant "" ""
  | case_variant_cons a b s t :
      same_letter a b → case_variant s t →
      case_variant (String a s) (String b t).

(** The thrown values the spec calls DuplicateTenantError,
    ProvisioningError and UnknownTenantError. *)
Definition DuplicateTenantError : Thrown := Error "Subdomain already exists".
Definition UnknownTenantError (subdomain : string) : Thrown :=
  Error ("No tenant with subdomain " +:+ subdomain).

(** Running a method for its effect. *)
Definition after {A} (m : M A) (s : State) : State := (m s).2.

(** The registry table of database [dbn] has the row. *)
Definition has_row (dbn : string) (row : iTenant.t) (s : State) : Prop :=
  ∃ d, databases (world s) !! dbn = Some d ∧ row ∈ Tenants d.

(** ** The fleet *)

Definition tenant_database (t : iTenant.t) : string :=
  "tenant_" +:+ iTenant.subdomain t.





(** [this.tenantConnections[subdomain]] is a handle or nothing, not an
    inherited member. *)
Definition plain_key (s : State) (subdomain : string) : Prop :=
  ∀ k, js_get (tenantConnections (this s)) subdomain ≠ Inherited k.

(** No connection and no binding is stored under a name that plain objects
    inherit from [Object.prototype]. *)
Definition no_inherited_keys (s : State) : Prop :=
  ∀ k, k ∈ Object_prototype →
       own_get (tenantConnections (this s)) k = None
       ∧ own_get (tenantORMs (this s)) k = None.

Definition warned (e : Thrown) : LogEntry :=
  mkLog WARN "Migration warning for tenant" (PThrown e).

(** Two tenants provisioned (split variant) when the only migration unit was
    [A]; the units [B] and [C] come later. *)
Definition demo_fleet : State :=
  (call (demo_env_units ["A"] no_fault) (OCreateTenant "t2")
     (call (demo_env_units ["A"] no_fault) (OCreateTenant "t1")
        (call (demo_env_units ["A"] no_fault) OBuildMainORM
           demo_start_split).2).2).2.

Definition demo_registry : Database :=
  mkDatabase []
    [ iTenant.mk 1 "t1" "active" "t1" "tenant_t1";
      iTenant.mk 2 "t2" "active" "t2" "tenant_t2" ]
    [].

(** ** The request middlewares

    [tenantMiddleware] and [mainMiddleware] wrap an instance for an Express
    application.  The repository has two versions of each; every version is
    embedded, in a module of its own.  The instance is the one of the state;
    of the request only the two headers that are read are kept, and the
    outcome is the answer sent or the hand-over to the next handler. *)

(** A header of [req.headers]: [string | string[] | undefined]. *)
Inductive HeaderValue :=
  | HUndefined
  | HString (s : string)
  | HArray (l : list string).

(** Truthiness of a header: [undefined] and the empty string are falsy, an
    array is truthy, also the empty one. *)
Definition header_truthy (h : HeaderValue) : bool :=
  match h with
  | HUndefined => false
  | HString s => negb (bool_decide (s = ""))
  | HArray _ => true
  end.

(** [Array.isArray(h) ? h[0] : h], with [None] for [undefined]. *)
Definition header_first (h : HeaderValue) : option string :=
  match h with
  | HUndefined => None
  | HString s => Some s
  | HArray l => head l
  end.

(** Truthiness of a [string | undefined]. *)
Definition string_truthy (v : option string) : bool :=
  match v with
  | Some s => negb (bool_decide (s = ""))
  | None => false
  end.

(** A [string | undefined] used as a property key or in a template string. *)
Definition js_string (v : option string) : string := default "undefined" v.

Record Request := mkRequest {
  x_tenant_id : HeaderValue;        (* req.headers["x-tenant-id"] *)
  authorization : option string }.  (* req.headers["authorization"] *)

(** What a middleware does with a request: it answers
    ([res.status(status).json({ error })]) or hands over ([next()]). *)
Inductive Reply :=
  | Responded (status : nat) (error : string)
  | Next.

#[global] Instance Reply_eq_dec : EqDecision Reply.
Proof. solve_decision. Defined.

(** [s.split(sep)] for a separator of one character. *)
Fixpoint split (sep : ascii) (s : string) : list string :=
  match s with
  | EmptyString => [EmptyString]
  | String c r =>
      if decide (c = sep) then EmptyString :: split sep r
      else match split sep r with
           | w :: ws => String c w :: ws
           | [] => [String c EmptyString]
           end
  end.

(** [jwt.verify(token, secret)] as the middleware uses it: it throws
    ([None]) or gives the decoded payload, of which only [tenantId] is read
    ([Some None] when the payload has no such member).  The token is what
    [split(" ")[1]] gave, possibly [undefined]. *)
Definition Verifier : Type := option string → string → option (option string).

(** The version that reads the [X-Tenant-Id] header only. *)
Module HeaderOnly.

Definition tenantMiddleware (env : Env) (req : Request) : M Reply :=
  let tenantIdHeader := x_tenant_id req in
  if negb (header_truthy tenantIdHeader) then
    ret (Responded 400 "Missing X-Tenant-Id header")
  else
    let tenantId := header_first tenantIdHeader in
    let* answered :=
      try_catch
        (setCurrentTenantConnection env (js_string tenantId) ;; ret None)
        (λ error, ret (Some (Responded 400 (message error)))) in
    match answered with
    | Some reply => ret reply
    | None => ret Next
    end.

End HeaderOnly.

(** The version that also accepts a bearer token; [jwtSecret] defaults to
    the empty string. *)
Module TokenOrHeader.

(** The first block, on the [Authorization] header: the answer it returns
    with, or the [tenantId] it leaves ([None] for [undefined]). *)
Definition decode_token (verify : Verifier) (jwtSecret : string)
    (authHeader : option string) : Reply + option string :=
  match authHeader with
  | Some a =>
      if negb (bool_decide (a = "")) && String.prefix "Bearer " a then
        let token := split " " a !! 1 in
        match verify token jwtSecret with
        | Some tenantId => inr tenantId
        | None => inl (Responded 401 "Invalid token")
        end
      else inr None
  | None => inr None
  end.

Definition tenantMiddleware (env : Env) (verify : Verifier)
    (jwtSecret : option string) (req : Request) : M Reply :=
  let jwtSecret := default "" jwtSecret in
  let authHeader := authorization req in
  match decode_token verify jwtSecret authHeader with
  | inl reply => ret reply
  | inr tenantId =>
      let tenantIdHeader := x_tenant_id req in
      let tenantId :=
        if header_truthy tenantIdHeader then header_first tenantIdHeader
        else tenantId in
      if negb (string_truthy tenantId) then
        ret (Responded 400 "Missing X-Tenant-Id header and token tenant ID")
      else
        let* answered :=
          try_catch
            (setCurrentTenantConnection env (js_string tenantId) ;; ret None)
            (λ error, ret (Some (Responded 400 (message error)))) in
        match answered with
        | Some reply => ret reply
        | None => ret Next
        end
  end.

End TokenOrHeader.

(** The version that refuses a request carrying [X-Tenant-Id]. *)
Module RefusingTenantHeader.

Definition mainMiddleware (env : Env) (req : Request) : M Reply :=
  if header_truthy (x_tenant_id req) then
    ret (Responded 400 "Non necessary header X-Tenant-Id")
  else
    let* answered :=
      try_catch
        (setCurrentMainConnection env ;; ret None)
        (λ error, ret (Some (Responded 400 (message error)))) in
    match answered with
    | Some reply => ret reply
    | None => ret Next
    end.

End RefusingTenantHeader.

(** The version that reads nothing of the request. *)
Module AnyRequest.

Definition mainMiddleware (env : Env) (req : Request) : M Reply :=
  let* answered :=
    try_catch
      (setCurrentMainConnection env ;; ret None)
      (λ error, ret (Some (Responded 500 "Internal server error"))) in
  match answered with
  | Some reply => ret reply
  | None => ret Next
  end.

End AnyRequest.

(** ** Seeds *)

(** The seed modules of a directory that export a [seed] function, as the
    paths [_initializeSeeders] imports, in the order of the listing. *)
Definition seed_paths (env : Env) (seedDirectory : string)
    (seedFiles : list string) : list string :=
  filter (λ seedPath, exports_seed env seedPath = true)
    (map (path_join seedDirectory) seedFiles).

Definition extend_seeded (d : Database) (ran : list string) : Database :=
  mkDatabase (ledger d) (Tenants d) (seeded d ++ ran).

(** The function [_initializeSeeders] returns. *)
Definition run_seeders (env : Env) (connection : nat)
    (seedDirectory : string) (seedFiles : list string) : M unit :=
  for_of
    (omap (λ seedFile,
             let seedPath := path_join seedDirectory seedFile in
             if exports_seed env seedPath
             then Some (run_seed env connection seedPath) else None)
       seedFiles)
    (λ seeder, seeder).

(** The demo installation with seeds directories (the one of the
    single-directory variant and the one of the split variant): two seed
    modules and a file that is none. *)
Definition demo_env_seeds (seed_faults : string → string → option Thrown)
  : Env :=
  let e := demo_env no_fault in
  mkEnv (readdirSync e) (module_exports e)
    (λ dir,
       if decide (dir = "models/../../knex/seeds"
                  ∨ dir = "models/tenant/../../../knex/seeds/tenant")
       then Some ["01_users.ts"; "notes.md"; "02_tasks.ts"]
       else None)
    (λ path,
       bool_decide
         (path ∈ ["models/../../knex/seeds/01_users.ts";
                  "models/../../knex/seeds/02_tasks.ts";
                  "models/tenant/../../../knex/seeds/tenant/01_users.ts";
                  "models/tenant/../../../knex/seeds/tenant/02_tasks.ts"]))
    seed_faults (migration_units e) (up_fault e) (insert_fault e)
    (create_database_fault e).

(** ** The registry seen through the system connection *)

(** The system connection of the instance is [sysK], live on configuration
    [c], and the registry table of its database has [row]. *)
Definition registered_row (sysK : nat) (c : KnexConfig) (row : iTenant.t)
    (s : State) : Prop :=
  registry_ok s
  ∧ systemKnex (this s) = sysK
  ∧ knexes (world s) !! sysK = Some (mkKnex c false)
  ∧ has_row (database c) row s.

(** What an import changes, kept as it was: the binding objects, the
    connections of the classes, the system binding and the tenant
    bindings. *)
Definition bindings_as_in (s s' : State) : Prop :=
  orms (world s') = orms (world s)
  ∧ class_knex (world s') = class_knex (world s)
  ∧ mainORM (this s') = mainORM (this s)
  ∧ tenantORMs (this s') = tenantORMs (this s).

(** ** Building the tenant bindings *)

(** One turn of the loop of [buildTenantORMs]: the models are imported
    against the connection registered under the name, and the new binding is
    stored under it. *)
Definition bound (env : Env) (subdomain : string) (s : State) : State :=
  match own_get (tenantConnections (this s)) subdomain with
  | Some c =>
      on_this (set_tenantORMs
                 (λ t, obj_set t subdomain (length (orms (world s)))))
        (imported env c (tenantModelsPath (this s)) s)
  | None => s
  end.


(** ** The configuration of an instance *)

(** What the constructor is given, and the two connections it opens. *)
Definition configuration (t : MultiTenantKnex)
  : Layout * KnexConfig * KnexConfig * nat * nat * string * string * string :=
  (layout t, systemKnexConfig t, tenantKnexConfig t, systemKnex t,
   tenantKnex t, systemModelsPath t, tenantModelsPath t, tenantSeedRoute t).

(** * Properties *)

(** ** Objects used as dictionaries *)

Section JsObjectFacts.
Context {V : Type}.
Implicit Types (o : list (string * V)) (k : string) (v : V).

Lemma own_get_obj_set_eq o k v : own_get (obj_set o k v) k = Some v.
Proof.
  induction o as [|[k' v'] r IH]; simpl.
  - by rewrite decide_True.
  - destruct (decide (k = k')) as [->|Hne]; simpl.
    + by rewrite decide_True.
    + by rewrite decide_False.
Qed.

Lemma own_get_obj_set_ne o k k' v :
  k ≠ k' → own_get (obj_set o k v) k' = own_get o k'.
Proof.
  intros Hne. induction o as [|[k0 v0] r IH]; simpl.
  - by rewrite decide_False.
  - destruct (decide (k = k0)) as [->|Hk]; simpl.
    + by rewrite !decide_False.
    + destruct (decide (k' = k0)); [done | apply IH].
Qed.

Lemma own_get_obj_set o k k' v :
  own_get (obj_set o k v) k' = if decide (k = k') then Some v else own_get o k'.
Proof.
  case_decide as H; [subst; apply own_get_obj_set_eq|].
  by apply own_get_obj_set_ne.
Qed.

Lemma js_get_obj_set_eq o k v : js_get (obj_set o k v) k = Own v.
Proof. unfold js_get. by rewrite own_get_obj_set_eq. Qed.

Lemma js_get_own o k v : own_get o k = Some v → js_get o k = Own v.
Proof. unfold js_get. by intros ->. Qed.

End JsObjectFacts.

(** ** Running the monad *)

Lemma bind_Ok {A B} (m : M A) (k : A → M B) s a s' :
  m s = (Ok a, s') → bind m k s = k a s'.
Proof. unfold bind. by intros ->. Qed.

Lemma bind_Throw {A B} (m : M A) (k : A → M B) s e s' :
  m s = (Throw e, s') → bind m k s = (Throw e, s').
Proof. unfold bind. by intros ->. Qed.

Lemma bind_inv_Ok {A B} (m : M A) (k : A → M B) s b s' :
  bind m k s = (Ok b, s') → ∃ a s1, m s = (Ok a, s1) ∧ k a s1 = (Ok b, s').
Proof.
  unfold bind. destruct (m s) as [[a|e] s1]; [eauto | done].
Qed.



(** A loop whose body always succeeds with a known state change. *)
Lemma for_of_foldl {A} (l : list A) (f : A → M unit) (g : State → A → State) :
  (∀ x s, f x s = (Ok tt, g s x)) →
  ∀ s, for_of l f s = (Ok tt, foldl g s l).
Proof.
  intros Hf. induction l as [|x r IH]; intros s; simpl; [done|].
  by rewrite (bind_Ok _ _ _ _ _ (Hf x s)).
Qed.

Lemma foldl_concat {A B} (f : A → B → A) (a : A) (ls : list (list B)) :
  foldl f a (concat ls) = foldl (λ a l, foldl f a l) a ls.
Proof.
  revert a. induction ls as [|l r IH]; intros a; simpl; [done|].
  by rewrite foldl_app, IH.
Qed.

(** ** [_importModels] never throws, and what it leaves behind *)

Lemma importModels_run env c p s :
  _importModels env c p s = (Ok (length (orms (world s))), imported env c p s).
Proof.
  unfold _importModels, imported.
  set (o := length (orms (world s))).
  set (s0 := on_world (set_orms (λ l, l ++ [[]])) s).
  assert (Hnew : new_object s = (Ok o, s0)) by done.
  rewrite (bind_Ok _ _ _ _ _ Hnew).
  assert (Hlay : ∀ k : Layout → M nat,
             bind (gets (λ s, layout (this s))) k s0 = k (layout (this s)) s0)
    by done.
  rewrite Hlay.
  assert (Hann :
    (match layout (this s) with
     | SystemTenantSplit => console_write LOG "hey" (PStr p)
     | SingleDirectory => ret tt
     end) s0 = (Ok tt, announce p s0)).
  { unfold announce. change (layout (this s0)) with (layout (this s)).
    by destruct (layout (this s)). }
  rewrite (bind_Ok _ _ _ _ _ Hann).
  set (s1 := announce p s0).
  assert (Hloop :
    for_of (_getModelFiles env p) (λ file,
      for_of (module_exports env (path_join p file)) (λ ex,
        orm_set o (export_name ex) (path_join p file, export_name ex) ;;
        Model_knex (path_join p file, export_name ex) c)) s1
    = (Ok tt, foldl (bind_step c o) s1 (model_classes env p))).
  { unfold model_classes. rewrite foldl_concat, foldl_fmap.
    apply for_of_foldl. intros file t.
    rewrite foldl_fmap. by apply for_of_foldl. }
  rewrite (bind_Ok _ _ _ _ _ Hloop).
  set (s2 := foldl (bind_step c o) s1 (model_classes env p)).
  unfold bind at 1, gets at 1.
  set (keys := obj_keys (default [] (orms (world s2) !! o))).
  assert (Hwire :
    for_of keys (λ modelName,
      let* modelClass :=
        gets (λ s, orms (world s) !! o ≫= λ props, own_get props modelName) in
      match modelClass with
      | Some cls => if declares_associate env cls then associate cls o
                    else ret tt
      | None => ret tt
      end) s2
    = (Ok tt, foldl (wire_step env o) s2 keys)).
  { apply for_of_foldl. intros n t. unfold bind, gets, wire_step.
    destruct (orms (world t) !! o ≫= λ props, own_get props n) as [cls|];
      [|done].
    by destruct (declares_associate env cls). }
  by rewrite (bind_Ok _ _ _ _ _ Hwire).
Qed.

(** What the two loops touch. *)
Lemma bind_steps_this c o cs s : this (foldl (bind_step c o) s cs) = this s.
Proof. revert s. induction cs as [|x r IH]; intros s; simpl; [done|]. by rewrite IH. Qed.

Lemma bind_steps_knexes c o cs s :
  knexes (world (foldl (bind_step c o) s cs)) = knexes (world s).
Proof. revert s. induction cs as [|x r IH]; intros s; simpl; [done|]. by rewrite IH. Qed.

Lemma bind_steps_databases c o cs s :
  databases (world (foldl (bind_step c o) s cs)) = databases (world s).
Proof. revert s. induction cs as [|x r IH]; intros s; simpl; [done|]. by rewrite IH. Qed.

Lemma bind_steps_class_assoc c o cs s :
  class_assoc (world (foldl (bind_step c o) s cs)) = class_assoc (world s).
Proof. revert s. induction cs as [|x r IH]; intros s; simpl; [done|]. by rewrite IH. Qed.

Lemma bind_steps_orms c o cs s :
  orms (world (foldl (bind_step c o) s cs))
  = alter (λ props, foldl (λ props nc, obj_set props nc.1 nc.2) props cs) o
      (orms (world s)).
Proof.
  revert s. induction cs as [|x r IH]; intros s; simpl.
  - by rewrite list_alter_id.
  - rewrite IH. simpl. by rewrite list_alter_alter_eq.
Qed.

Lemma bind_steps_class_knex c o cs s cls :
  class_knex (world (foldl (bind_step c o) s cs)) !! cls
  = if bool_decide (cls ∈ cs.*2) then Some c else class_knex (world s) !! cls.
Proof.
  revert s. induction cs as [|x r IH]; intros s; simpl; [done|].
  rewrite IH. simpl. destruct (decide (cls ∈ r.*2)) as [Hin|Hin].
  - rewrite !bool_decide_true; [done | by right | done].
  - rewrite (bool_decide_false _ Hin).
    destruct (decide (cls = x.2)) as [->|Hne].
    + rewrite bool_decide_true by left. apply lookup_insert_eq.
    + rewrite bool_decide_false by (intros [?|?]%elem_of_cons; done).
      by apply lookup_insert_ne.
Qed.

Lemma wire_steps_this env o ks s : this (foldl (wire_step env o) s ks) = this s.
Proof.
  revert s. induction ks as [|x r IH]; intros s; simpl; [done|].
  rewrite IH. unfold wire_step. by repeat case_match.
Qed.

Lemma wire_steps_world env o ks s :
  let w' := world (foldl (wire_step env o) s ks) in
  knexes w' = knexes (world s) ∧ orms w' = orms (world s)
  ∧ class_knex w' = class_knex (world s)
  ∧ databases w' = databases (world s) ∧ console w' = console (world s).
Proof.
  revert s. induction ks as [|x r IH]; intros s; simpl; [done|].
  destruct (IH (wire_step env o s x)) as (-> & -> & -> & -> & ->).
  unfold wire_step. by repeat case_match.
Qed.

Lemma announce_this p s : this (announce p s) = this s.
Proof. unfold announce. by case_match. Qed.

Lemma announce_world p s :
  let w' := world (announce p s) in
  knexes w' = knexes (world s) ∧ orms w' = orms (world s)
  ∧ class_knex w' = class_knex (world s)
  ∧ class_assoc w' = class_assoc (world s)
  ∧ databases w' = databases (world s).
Proof. unfold announce. by case_match. Qed.

Lemma imported_this env c p s : this (imported env c p s) = this s.
Proof.
  unfold imported. by rewrite wire_steps_this, bind_steps_this, announce_this.
Qed.

Lemma imported_knexes env c p s :
  knexes (world (imported env c p s)) = knexes (world s).
Proof.
  unfold imported.
  destruct (wire_steps_world env (length (orms (world s)))
    (obj_keys (default [] (orms (world (foldl (bind_step c (length (orms (world s))))
       (announce p (on_world (set_orms (λ l, l ++ [[]])) s))
       (model_classes env p))) !! length (orms (world s)))))
    (foldl (bind_step c (length (orms (world s))))
       (announce p (on_world (set_orms (λ l, l ++ [[]])) s))
       (model_classes env p))) as (-> & _).
  rewrite bind_steps_knexes. by destruct (announce_world p (on_world (set_orms (λ l, l ++ [[]])) s)) as (-> & _).
Qed.

Lemma imported_databases env c p s :
  databases (world (imported env c p s)) = databases (world s).
Proof.
  unfold imported.
  destruct (wire_steps_world env (length (orms (world s)))
    (obj_keys (default [] (orms (world (foldl (bind_step c (length (orms (world s))))
       (announce p (on_world (set_orms (λ l, l ++ [[]])) s))
       (model_classes env p))) !! length (orms (world s)))))
    (foldl (bind_step c (length (orms (world s))))
       (announce p (on_world (set_orms (λ l, l ++ [[]])) s))
       (model_classes env p))) as (_ & _ & _ & -> & _).
  rewrite bind_steps_databases.
  by destruct (announce_world p (on_world (set_orms (λ l, l ++ [[]])) s))
    as (_ & _ & _ & _ & ->).
Qed.

Lemma imported_orms env c p s :
  orms (world (imported env c p s)) = orms (world s) ++ [binding_of env p].
Proof.
  unfold imported.
  destruct (wire_steps_world env (length (orms (world s)))
    (obj_keys (default [] (orms (world (foldl (bind_step c (length (orms (world s))))
       (announce p (on_world (set_orms (λ l, l ++ [[]])) s))
       (model_classes env p))) !! length (orms (world s)))))
    (foldl (bind_step c (length (orms (world s))))
       (announce p (on_world (set_orms (λ l, l ++ [[]])) s))
       (model_classes env p))) as (_ & -> & _).
  rewrite bind_steps_orms.
  destruct (announce_world p (on_world (set_orms (λ l, l ++ [[]])) s))
    as (_ & -> & _). simpl.
  apply list_eq. intros i. rewrite list_lookup_alter.
  case_decide as Hi.
  - subst i. rewrite !lookup_app_r, Nat.sub_diag by lia. done.
  - destruct (decide (i < length (orms (world s)))).
    + by rewrite !lookup_app_l by lia.
    + rewrite !lookup_app_r by lia.
      destruct (i - length (orms (world s))) as [|[|j]] eqn:E; [lia|done..].
Qed.

Lemma imported_class_knex env c p s cls :
  class_knex (world (imported env c p s)) !! cls
  = if bool_decide (cls ∈ (model_classes env p).*2) then Some c
    else class_knex (world s) !! cls.
Proof.
  unfold imported.
  destruct (wire_steps_world env (length (orms (world s)))
    (obj_keys (default [] (orms (world (foldl (bind_step c (length (orms (world s))))
       (announce p (on_world (set_orms (λ l, l ++ [[]])) s))
       (model_classes env p))) !! length (orms (world s)))))
    (foldl (bind_step c (length (orms (world s))))
       (announce p (on_world (set_orms (λ l, l ++ [[]])) s))
       (model_classes env p))) as (_ & _ & -> & _).
  rewrite bind_steps_class_knex.
  by destruct (announce_world p (on_world (set_orms (λ l, l ++ [[]])) s))
    as (_ & _ & -> & _).
Qed.

(** ** Rules for invariants *)

Section InvRules.
Context {A B : Type}.
Variable I : State → Prop.

Lemma inv_pres (m : M A) (R : A → Prop) : inv I m R → pres I m.
Proof. intros H s Hs. by destruct (H s Hs). Qed.

Lemma inv_ret (a : A) (R : A → Prop) : R a → inv I (ret a) R.
Proof. intros Ha s Hs. split; [done|]. by intros ? [= <-]. Qed.

Lemma inv_throw e (R : A → Prop) : inv I (throw e) R.
Proof. intros s Hs. by split. Qed.

Lemma inv_gets (f : State → A) : pres I (gets f).
Proof. intros s Hs. by split. Qed.

(** What [gets] returns was read in a state where the invariant held. *)
Lemma inv_gets_state (f : State → A) :
  inv I (gets f) (λ a, ∃ s, I s ∧ a = f s).
Proof. intros s Hs. split; [done|]. intros a [= <-]. eauto. Qed.

Lemma inv_readonly (m : M A) : (∀ s, (m s).2 = s) → pres I m.
Proof. intros H s Hs. rewrite H. by split. Qed.

Lemma inv_bind (m : M A) (k : A → M B) (R1 : A → Prop) (R : B → Prop) :
  inv I m R1 → (∀ a, R1 a → inv I (k a) R) → inv I (bind m k) R.
Proof.
  intros Hm Hk s Hs. destruct (Hm s Hs) as [H1 H2]. unfold bind.
  destruct (m s) as [[a|e] s1]; simpl in *; [|by split].
  by apply (Hk a (H2 a eq_refl)).
Qed.

Lemma inv_try_catch (m : M A) (h : Thrown → M A) (R : A → Prop) :
  inv I m R → (∀ e, inv I (h e) R) → inv I (try_catch m h) R.
Proof.
  intros Hm Hh s Hs. destruct (Hm s Hs) as [H1 H2]. unfold try_catch.
  destruct (m s) as [[a|e] s1]; simpl in *; [by split; [|intros ? [= <-]; auto]|].
  by apply Hh.
Qed.

Lemma inv_settle (m : M A) (R : A → Prop) :
  inv I m R → inv I (settle m) (fulfilled R).
Proof.
  intros Hm s Hs. destruct (Hm s Hs) as [H1 H2]. unfold settle.
  destruct (m s) as [[a|e] s1]; simpl in *;
    (split; [done|]); intros ? [= <-]; simpl; auto.
Qed.

End InvRules.

Lemma inv_Promise_all {A} I (ps : list (Res A)) (R : A → Prop) :
  Forall (fulfilled R) ps → inv I (Promise_all ps) (Forall R).
Proof.
  induction 1 as [|[a|e] r Ha Hr IH]; simpl.
  - by apply inv_ret.
  - eapply inv_bind; [apply IH|]. intros vs Hvs. apply inv_ret. by constructor.
  - apply inv_throw.
Qed.

Lemma inv_modify I (f : State → State) :
  (∀ s, I s → I (f s)) → pres I (modify f).
Proof. intros H s Hs. split; [by apply H | done]. Qed.

Lemma inv_for_of {A} I (l : list A) (f : A → M unit) :
  (∀ x, x ∈ l → pres I (f x)) → pres I (for_of l f).
Proof.
  induction l as [|x r IH]; intros Hf; simpl.
  - by apply inv_ret.
  - eapply inv_bind; [apply Hf; by left|]. intros _ _. apply IH.
    intros y Hy. apply Hf. by right.
Qed.

Lemma inv_map_settled {A B} I (l : list A) (f : A → M B) (R : B → Prop) :
  (∀ x, x ∈ l → inv I (f x) R) →
  inv I (map_settled l f) (Forall (fulfilled R)).
Proof.
  induction l as [|x r IH]; intros Hf; simpl.
  - by apply inv_ret.
  - eapply inv_bind; [apply inv_settle, Hf; by left|]. intros p Hp.
    eapply inv_bind; [apply IH; intros y Hy; apply Hf; by right|].
    intros ps Hps. apply inv_ret. by constructor.
Qed.

Lemma pres_state {A} I (m : M A) s : pres I m → I s → I (m s).2.
Proof. intros H Hs. by destruct (H s Hs). Qed.

(** Reading through a connection changes nothing. *)
Lemma acquire_state h s : (acquire h s).2 = s.
Proof.
  unfold acquire, bind, gets. simpl.
  destruct (knexes (world s) !! h) as [k|]; [|done].
  destruct (destroyed k); [done|].
  by destruct (databases (world s) !! database (config k)).
Qed.

Lemma acquire_Ok h s k d :
  knexes (world s) !! h = Some k → destroyed k = false →
  databases (world s) !! database (config k) = Some d →
  acquire h s = (Ok (config k, d), s).
Proof. unfold acquire, bind, gets. simpl. by intros -> -> ->. Qed.

Lemma acquire_inv_Ok h s c d s' :
  acquire h s = (Ok (c, d), s') →
  s' = s ∧ ∃ k, knexes (world s) !! h = Some k ∧ destroyed k = false
              ∧ c = config k ∧ databases (world s) !! database c = Some d.
Proof.
  unfold acquire, bind, gets. simpl.
  destruct (knexes (world s) !! h) as [k|]; [|done].
  destruct (destroyed k) eqn:Hd; [done|].
  destruct (databases (world s) !! database (config k)) eqn:Hdb; [|done].
  intros [= <- <- <-]. eauto 10.
Qed.

Lemma migrate_list_state env h s : (migrate_list env h s).2 = s.
Proof.
  unfold migrate_list, bind. pose proof (acquire_state h s) as H.
  destruct (acquire h s) as [[[c d]|e] s1]; simpl in *; by subst.
Qed.

Lemma select_Tenants_state h s : (select_Tenants h s).2 = s.
Proof.
  unfold select_Tenants, bind. pose proof (acquire_state h s) as H.
  destruct (acquire h s) as [[[c d]|e] s1]; simpl in *; by subst.
Qed.

Lemma Model_query_state o n s : (Model_query o n s).2 = s.
Proof.
  unfold Model_query, bind, gets. simpl.
  destruct (orms (world s) !! o ≫= λ props, own_get props n) as [cls|]; [|done].
  by destruct (class_knex (world s) !! cls).
Qed.

(** ** Every method keeps what its building blocks keep *)

(** [I] is the invariant; [P] is what a successful
    [_createTenantConnection] tells about the subdomain it was given, which
    is also true of every registered subdomain and is what storing a binding
    under a subdomain may rely on. *)
Section Preservation.
Variable env : Env.
Variable I : State → Prop.
Variable P : string → Prop.

Hypothesis I_console : ∀ l t p, pres I (console_write l t p).
Hypothesis I_migrate_up : ∀ h n, pres I (migrate_up env h n).
Hypothesis I_run_seed : ∀ h p, pres I (run_seed env h p).
Hypothesis I_insert_Tenant : ∀ h n st sd db, pres I (insert_Tenant env h n st sd db).
Hypothesis I_create_database : ∀ h dbn, pres I (create_database env h dbn).
Hypothesis I_createTenantConnection :
  ∀ sub, inv I (_createTenantConnection sub) (λ _, P sub).
Hypothesis I_registered :
  ∀ s sub, I s → is_Some (own_get (tenantConnections (this s)) sub) → P sub.
Hypothesis I_importModels : ∀ c p, pres I (_importModels env c p).
Hypothesis I_set_tenantORMs :
  ∀ sub o s, P sub → I s →
             I (on_this (set_tenantORMs (λ t, obj_set t sub o)) s).
Hypothesis I_set_mainORM : ∀ o s, I s → I (on_this (set_mainORM o) s).
Hypothesis I_set_currentORM :
  ∀ r s, ref_truthy r = true → I s → I (on_this (set_currentORM r) s).

Lemma pres_initializeMigrations c :
  inv I (_initializeMigrations env c) (keeps_if_any I).
Proof.
  unfold _initializeMigrations. apply inv_try_catch.
  - eapply inv_bind; [apply inv_readonly, migrate_list_state|].
    intros mf _. eapply inv_bind; [apply I_console|]. intros _ _.
    case_match.
    + eapply inv_bind; [apply I_console|]. intros _ _. by apply inv_ret.
    + apply inv_ret. simpl. apply inv_for_of. intros x _. apply I_migrate_up.
  - intros e. eapply inv_bind; [|intros _ _; apply inv_throw].
    case_match; apply I_console.
Qed.

Lemma pres_run_if_any (f : option (M unit)) :
  keeps_if_any I f → pres I (match f with Some run => run | None => ret tt end).
Proof. destruct f; simpl; [done|]. intros _. by apply inv_ret. Qed.

Lemma pres_initializeSeeders c g :
  inv I (_initializeSeeders env c g) (pres I).
Proof.
  unfold _initializeSeeders. apply inv_try_catch.
  - eapply inv_bind.
    + instantiate (1 := λ _, True). case_match; [by apply inv_ret | apply inv_throw].
    + intros files _. apply inv_ret. apply inv_for_of. intros x Hx.
      apply list_elem_of_omap in Hx as (file & _ & Hfile).
      case_match; [|done]. injection Hfile as <-. apply I_run_seed.
  - intros e. eapply inv_bind; [apply I_console|]. intros _ _. apply inv_throw.
Qed.

Lemma pres_getDbTenants : pres I getDbTenants.
Proof.
  unfold getDbTenants. eapply inv_bind; [apply inv_gets|]. intros c _.
  apply inv_readonly, select_Tenants_state.
Qed.

Lemma pres_migrateMainDb : pres I (migrateMainDb env).
Proof.
  unfold migrateMainDb. eapply inv_bind; [apply inv_gets|]. intros c _.
  eapply inv_bind; [apply pres_initializeMigrations|]. intros f Hf.
  apply inv_try_catch; [by apply pres_run_if_any|].
  intros e. eapply inv_bind; [|intros _ _; apply inv_throw].
  case_match; apply I_console.
Qed.

Lemma pres_tolerate what run : pres I run → pres I (tolerate what run).
Proof.
  intros H. unfold tolerate. apply inv_try_catch; [done|].
  intros e. case_match; [apply I_console | apply inv_throw].
Qed.

Lemma pres_migrateAllTenants : pres I (migrateAllTenants env).
Proof.
  unfold migrateAllTenants. apply inv_try_catch.
  - eapply inv_bind; [apply pres_getDbTenants|]. intros tenants _.
    eapply inv_bind.
    { apply (inv_map_settled _ _ _ (λ _, True)). intros x _.
      eapply inv_pres, I_createTenantConnection. }
    intros conns _. eapply inv_bind.
    { apply (inv_map_settled _ _ _ (keeps_if_any I)). intros [c|e] _;
        [apply pres_initializeMigrations | apply inv_throw]. }
    intros ps Hps. eapply inv_bind; [by apply inv_Promise_all|].
    intros fs Hfs. eapply inv_bind; [|intros _ _; apply I_console].
    apply inv_for_of. intros f Hf. rewrite Forall_forall in Hfs.
    specialize (Hfs f Hf). destruct f; [|by apply inv_ret].
    by apply pres_tolerate.
  - intros e. eapply inv_bind; [apply I_console|]. intros _ _. apply inv_throw.
Qed.

Lemma pres_seedsAllTenants : pres I (seedsAllTenants env).
Proof.
  unfold seedsAllTenants. apply inv_try_catch.
  - eapply inv_bind; [apply pres_getDbTenants|]. intros tenants _.
    eapply inv_bind; [apply inv_gets|]. intros pathSeeds _.
    eapply inv_bind.
    { apply (inv_map_settled _ _ _ (λ _, True)). intros x _.
      eapply inv_pres, I_createTenantConnection. }
    intros conns _. eapply inv_bind.
    { apply (inv_map_settled _ _ _ (pres I)). intros [c|e] _;
        [apply pres_initializeSeeders | apply inv_throw]. }
    intros ps Hps. eapply inv_bind; [by apply inv_Promise_all|].
    intros fs Hfs. eapply inv_bind; [|intros _ _; apply I_console].
    apply inv_for_of. intros f Hf. rewrite Forall_forall in Hfs.
    by apply pres_tolerate, Hfs.
  - intros e. eapply inv_bind; [apply I_console|]. intros _ _. apply inv_throw.
Qed.

Lemma pres_migrate : pres I (migrate env).
Proof.
  unfold migrate. eapply inv_bind; [apply inv_gets|]. intros lay _.
  eapply inv_bind.
  { instantiate (1 := λ _, True).
    destruct lay; [apply pres_migrateMainDb | by apply inv_ret]. }
  intros _ _. eapply inv_bind; [apply pres_migrateAllTenants|].
  intros _ _. apply pres_seedsAllTenants.
Qed.

Lemma pres_buildMainORM : pres I (buildMainORM env).
Proof.
  unfold buildMainORM. eapply inv_bind; [apply inv_gets|]. intros c _.
  eapply inv_bind; [apply inv_gets|]. intros p _.
  eapply inv_bind; [apply I_importModels|]. intros o _.
  apply inv_modify. apply I_set_mainORM.
Qed.

Lemma pres_register_tenant sub : pres I (register_tenant env sub).
Proof.
  unfold register_tenant. apply inv_try_catch.
  - eapply inv_bind; [apply inv_gets|]. intros o _.
    eapply inv_bind; [apply inv_readonly, Model_query_state|]. intros k _.
    apply I_insert_Tenant.
  - intros e. eapply inv_bind; [apply I_console|]. intros _ _.
    case_match; apply inv_throw.
Qed.

Lemma pres_provision sub tenant : pres I (provision env sub tenant).
Proof.
  unfold provision. eapply inv_bind; [apply inv_gets|]. intros c _.
  eapply inv_bind; [apply I_create_database|]. intros _ _.
  eapply inv_bind; [apply I_createTenantConnection|]. intros tc Hsub.
  eapply inv_bind; [apply inv_gets|]. intros ps _.
  eapply inv_bind; [apply pres_initializeMigrations|]. intros f Hf.
  eapply inv_bind; [by apply pres_run_if_any|]. intros _ _.
  eapply inv_bind; [apply pres_initializeSeeders|]. intros sd Hsd.
  eapply inv_bind; [apply Hsd|]. intros _ _.
  eapply inv_bind; [apply inv_gets|]. intros p _.
  eapply inv_bind; [apply I_importModels|]. intros o _.
  eapply inv_bind; [apply inv_modify; intros s; by apply I_set_tenantORMs|].
  intros _ _. by apply inv_ret.
Qed.

Lemma pres_createTenant name : pres I (createTenant env name).
Proof.
  change (createTenant env name)
    with (bind (register_tenant env (toLowerCase name))
            (provision env (toLowerCase name))).
  eapply inv_bind; [apply pres_register_tenant|]. intros t _.
  apply pres_provision.
Qed.

Lemma pres_buildTenantConnections : pres I buildTenantConnections.
Proof.
  unfold buildTenantConnections.
  eapply inv_bind; [apply pres_getDbTenants|]. intros ts _.
  apply inv_for_of. intros t _.
  eapply inv_bind; [eapply inv_pres, I_createTenantConnection|]. intros _ _.
  by apply inv_ret.
Qed.

Lemma pres_buildTenantORMs : pres I (buildTenantORMs env).
Proof.
  unfold buildTenantORMs. eapply inv_bind; [apply inv_gets|]. intros n _.
  eapply inv_bind.
  { instantiate (1 := λ _, True).
    case_match; [apply pres_buildTenantConnections | by apply inv_ret]. }
  intros _ _. eapply inv_bind; [apply inv_gets|]. intros keys _.
  apply inv_for_of. intros sub _.
  eapply inv_bind; [apply inv_gets_state|]. intros c (s0 & Hs0 & Hc).
  eapply inv_bind; [apply inv_gets|]. intros p _.
  destruct c as [c|]; [|by apply inv_ret].
  assert (Hsub : P sub) by (apply (I_registered s0); [done | by rewrite <- Hc]).
  eapply inv_bind; [apply I_importModels|]. intros o _.
  apply inv_modify. intros s. by apply I_set_tenantORMs.
Qed.

Lemma member_ref_truthy (m : Member nat) :
  truthy m = true → ref_truthy (member_ref m) = true.
Proof. by destruct m. Qed.

Lemma pres_setCurrentORM sub : pres I (setCurrentORM sub).
Proof.
  unfold setCurrentORM. eapply inv_bind; [apply inv_gets|]. intros found _.
  destruct (truthy found) eqn:Hf; simpl; [|apply inv_throw].
  eapply inv_bind.
  { apply inv_modify. intros s. by apply I_set_currentORM, member_ref_truthy. }
  intros _ _. eapply inv_bind; [apply inv_gets|]. intros cur _.
  apply I_console.
Qed.

Lemma switch_run sub orm s :
  (modify (on_this (set_tenantORMs (λ t, obj_set t sub orm))) ;;
   let* stored := gets (λ s, js_get (tenantORMs (this s)) sub) in
   modify (on_this (set_currentORM (member_ref stored))) ;;
   let* cur := gets (λ s, currentORM (this s)) in
   console_write LOG "currentORM" (PRef cur)) s
  = (Ok tt, switched sub orm s).
Proof.
  unfold bind, modify, gets, console_write, switched. simpl.
  by rewrite js_get_obj_set_eq.
Qed.

Lemma I_switched sub orm s : P sub → I s → I (switched sub orm s).
Proof.
  intros Hsub Hs. unfold switched.
  apply (pres_state I (console_write LOG "currentORM" (PRef (Ref orm)))
           _ (I_console _ _ _)).
  apply I_set_currentORM; [done|]. by apply I_set_tenantORMs.
Qed.

Lemma pres_setCurrentTenantConnection sub :
  pres I (setCurrentTenantConnection env sub).
Proof.
  unfold setCurrentTenantConnection.
  eapply inv_bind; [apply inv_gets|]. intros found _.
  destruct (truthy found) eqn:Hf; simpl; [|apply inv_throw].
  eapply inv_bind; [apply I_createTenantConnection|]. intros tc Hsub.
  eapply inv_bind; [apply inv_gets|]. intros p _.
  eapply inv_bind; [apply I_importModels|]. intros o _.
  intros s Hs. rewrite switch_run. split; [by apply I_switched | done].
Qed.

Lemma pres_setCurrentMainConnection : pres I (setCurrentMainConnection env).
Proof.
  unfold setCurrentMainConnection.
  eapply inv_bind; [apply inv_gets|]. intros c _.
  eapply inv_bind; [apply inv_gets|]. intros p _.
  eapply inv_bind; [apply I_importModels|]. intros o _.
  eapply inv_bind; [apply inv_modify, I_set_mainORM|]. intros _ _.
  eapply inv_bind; [apply inv_gets|]. intros main _.
  apply inv_modify. intros s. by apply I_set_currentORM.
Qed.

Lemma pres_getCurrentORM : pres I getCurrentORM.
Proof.
  unfold getCurrentORM. eapply inv_bind; [apply inv_gets|]. intros cur _.
  case_match; [apply inv_throw | by apply inv_ret].
Qed.

Lemma pres_call op : pres I (call env op).
Proof.
  destruct op; simpl;
    try (eapply inv_bind; [|intros _ _; by apply inv_ret]).
  - apply pres_buildMainORM.
  - apply pres_createTenant.
  - apply pres_migrate.
  - apply pres_migrateMainDb.
  - apply pres_migrateAllTenants.
  - apply pres_seedsAllTenants.
  - apply pres_getDbTenants.
  - apply pres_buildTenantConnections.
  - apply pres_buildTenantORMs.
  - apply pres_setCurrentORM.
  - apply pres_setCurrentTenantConnection.
  - apply pres_setCurrentMainConnection.
  - apply pres_getCurrentORM.
Qed.

End Preservation.

(** ** What the storage operations touch *)

Lemma same_but_databases_refl s : same_but_databases s s.
Proof. by repeat split. Qed.

Lemma store_frame dbn d s : same_but_databases s (store dbn d s).2.
Proof. by repeat split. Qed.

Lemma run_up_frame env dbn d u s : same_but_databases s (run_up env dbn d u s).2.
Proof.
  unfold run_up. destruct (up_fault env dbn u);
    [apply same_but_databases_refl | apply store_frame].
Qed.

Ltac with_acquire h s c d :=
  let H := fresh "H" in
  let Hacq := fresh "Hacq" in
  let s1 := fresh "s" in
  pose proof (acquire_state h s) as H;
  destruct (acquire h s) as [[[c d]|?] s1] eqn:Hacq; simpl in H; subst s1;
  [|try apply same_but_databases_refl].

Lemma migrate_up_frame env h n s :
  same_but_databases s (migrate_up env h n s).2.
Proof.
  unfold migrate_up, bind. with_acquire h s c d.
  destruct n as [n|].
  - case_bool_decide; [apply same_but_databases_refl|].
    case_bool_decide; [apply run_up_frame | apply same_but_databases_refl].
  - case_match; [apply same_but_databases_refl | apply run_up_frame].
Qed.

Lemma run_seed_frame env h p s : same_but_databases s (run_seed env h p s).2.
Proof.
  unfold run_seed, bind. with_acquire h s c d.
  case_match; [apply same_but_databases_refl | apply store_frame].
Qed.

Lemma insert_Tenant_frame env h n st sd db s :
  same_but_databases s (insert_Tenant env h n st sd db s).2.
Proof.
  unfold insert_Tenant, bind. with_acquire h s c d.
  destruct (insert_fault env (database c) n); [apply same_but_databases_refl|].
  case_bool_decide; [apply same_but_databases_refl|].
  by repeat split.
Qed.

Lemma create_database_frame env h dbn s :
  same_but_databases s (create_database env h dbn s).2.
Proof.
  unfold create_database, bind. with_acquire h s c d.
  case_match; [apply same_but_databases_refl|].
  unfold gets. simpl. case_match; [apply same_but_databases_refl|].
  apply store_frame.
Qed.

(** ** [_createTenantConnection], run *)

Lemma createTenantConnection_Ok sub s :
  (∀ k, js_get (tenantConnections (this s)) sub ≠ Inherited k) →
  _createTenantConnection sub s
  = (Ok (length (knexes (world s))), connected sub s).
Proof.
  intros Hn. unfold _createTenantConnection, connected, js_get in *.
  unfold bind at 1, gets at 1.
  destruct (own_get (tenantConnections (this s)) sub) as [h|] eqn:Hown.
  - unfold bind, destroy, modify, gets, knex, ret. simpl.
    by rewrite length_alter.
  - case_bool_decide; [by destruct (Hn sub)|]. done.
Qed.

Lemma createTenantConnection_Inherited sub s k :
  js_get (tenantConnections (this s)) sub = Inherited k →
  _createTenantConnection sub s
  = (Throw (TypeError
              "this.tenantConnections[subdomain].destroy is not a function"),
     s).
Proof.
  intros Hk. unfold _createTenantConnection.
  unfold bind at 1, gets at 1. by rewrite Hk.
Qed.

Lemma createTenantConnection_cases sub s :
  _createTenantConnection sub s
  = (Ok (length (knexes (world s))), connected sub s)
  ∨ ∃ e, _createTenantConnection sub s = (Throw e, s).
Proof.
  destruct (js_get (tenantConnections (this s)) sub) as [h|k|] eqn:Hg.
  - left. apply createTenantConnection_Ok. intros k. by rewrite Hg.
  - right. eexists. by eapply createTenantConnection_Inherited.
  - left. apply createTenantConnection_Ok. intros k. by rewrite Hg.
Qed.

(** An invariant that does not look at the databases survives the storage
    operations. *)
Lemma pres_frame {A} (I : State → Prop) (m : M A) :
  (∀ s, same_but_databases s (m s).2) →
  (∀ s s', same_but_databases s s' → I s → I s') →
  pres I m.
Proof. intros Hm HI s Hs. split; [|done]. eapply HI; [apply Hm | done]. Qed.

Lemma pres_importModels_frame (I : State → Prop) env c p :
  (∀ s s', this s' = this s → knexes (world s') = knexes (world s) →
           databases (world s') = databases (world s) → I s → I s') →
  pres I (_importModels env c p).
Proof.
  intros HI s Hs. rewrite importModels_run. split; [|done]. simpl.
  eapply HI; [apply imported_this | apply imported_knexes
             | apply imported_databases | done].
Qed.

(** ** The active context is never unset *)

Lemma context_set_call env op : pres context_set (call env op).
Proof.
  assert (Hfr : ∀ s s', this s' = this s → context_set s → context_set s').
  { unfold context_set. by intros s s' ->. }
  apply (pres_call _ _ (λ _, True)).
  - intros l t p. by apply inv_modify.
  - intros h n. apply pres_frame; [apply migrate_up_frame|].
    intros s s' (? & _). by apply Hfr.
  - intros h p. apply pres_frame; [apply run_seed_frame|].
    intros s s' (? & _). by apply Hfr.
  - intros. apply pres_frame; [apply insert_Tenant_frame|].
    intros s s' (? & _). by apply Hfr.
  - intros. apply pres_frame; [apply create_database_frame|].
    intros s s' (? & _). by apply Hfr.
  - intros sub s Hs. split; [|done].
    destruct (createTenantConnection_cases sub s) as [->|[e ->]]; done.
  - done.
  - intros c p. apply pres_importModels_frame. intros s s' ? _ _. by apply Hfr.
  - done.
  - done.
  - done.
Qed.

Lemma reachable_context_set s : reachable s → context_set s.
Proof.
  induction 1 as [| |env op s _ IH]; [done..|].
  by apply (pres_state _ _ _ (context_set_call env op)).
Qed.

(** ** The connection registry *)

Lemma registry_ok_fields s s' :
  systemKnex (this s') = systemKnex (this s) →
  tenantKnex (this s') = tenantKnex (this s) →
  tenantKnexConfig (this s') = tenantKnexConfig (this s) →
  tenantConnections (this s') = tenantConnections (this s) →
  knexes (world s') = knexes (world s) →
  registry_ok s → registry_ok s'.
Proof.
  intros E1 E2 E3 E4 E5 [H1 H2 H3]. split; rewrite ?E1, ?E2, ?E3, ?E4, ?E5; done.
Qed.

Lemma registry_ok_frame s s' :
  this s' = this s → knexes (world s') = knexes (world s) →
  registry_ok s → registry_ok s'.
Proof. intros Ht Hk. apply registry_ok_fields; by rewrite ?Ht. Qed.


Lemma registered_inj s t1 t2 h :
  registry_ok s →
  own_get (tenantConnections (this s)) t1 = Some h →
  own_get (tenantConnections (this s)) t2 = Some h → t1 = t2.
Proof.
  intros Hok H1 H2.
  destruct (registered_live s Hok _ _ H1) as [_ E1].
  destruct (registered_live s Hok _ _ H2) as [_ E2].
  rewrite E1 in E2. injection E2 as E. exact E.
Qed.

Lemma registry_ok_connected sub s : registry_ok s → registry_ok (connected sub s).
Proof.
  intros Hok. pose proof (system_valid s Hok) as Hsys.
  set (n := length (knexes (world s))).
  assert (Hlen : ∀ w1,
    w1 = match own_get (tenantConnections (this s)) sub with
         | Some h => set_knexes (alter (λ k, mkKnex (config k) true) h) (world s)
         | None => world s
         end → length (knexes w1) = n).
  { intros w1 ->. destruct (own_get _ sub); simpl; [apply length_alter | done]. }
  split.
  - unfold connected. simpl. rewrite length_app, (Hlen _ eq_refl). simpl. lia.
  - intros t h. unfold connected. simpl. rewrite own_get_obj_set.
    case_decide as Ht.
    + intros [= <-]. subst t. split; [fold n; lia|].
      rewrite lookup_app_r; rewrite (Hlen _ eq_refl); [|done].
      by rewrite Nat.sub_diag.
    + intros Hh. destruct (registered_live s Hok _ _ Hh) as [Hlt Hk].
      split; [done|]. rewrite lookup_app_l
        by (rewrite (Hlen _ eq_refl); by apply lookup_lt_Some in Hk).
      destruct (own_get (tenantConnections (this s)) sub) as [h0|] eqn:Hsub;
        [|done]. simpl. rewrite list_lookup_alter_ne; [done|].
      intros <-. apply Ht. by eapply registered_inj.
  - intros h k. unfold connected. simpl. intros Hk Hlt Hlive.
    apply lookup_app_Some in Hk as [Hk|[Hge Hk]].
    + destruct (own_get (tenantConnections (this s)) sub) as [h0|] eqn:Hsub;
        simpl in Hk.
      * destruct (decide (h0 = h)) as [->|Hne].
        { rewrite list_lookup_alter_eq in Hk.
          destruct (knexes (world s) !! h); simplify_eq/=. }
        rewrite list_lookup_alter_ne in Hk by done.
        destruct (no_leak s Hok _ _ Hk Hlt Hlive) as [t Ht].
        exists t. rewrite own_get_obj_set_ne; [done|]. intros <-. congruence.
      * destruct (no_leak s Hok _ _ Hk Hlt Hlive) as [t Ht].
        exists t. rewrite own_get_obj_set_ne; [done|]. intros <-. congruence.
    + rewrite (Hlen _ eq_refl) in Hge, Hk.
      destruct (h - n) as [|j] eqn:E; [|done]. exists sub.
      replace h with n by lia. apply own_get_obj_set_eq.
Qed.

Lemma registry_ok_call env op : pres registry_ok (call env op).
Proof.
  assert (Hfr : ∀ s s', same_but_databases s s' → registry_ok s → registry_ok s').
  { intros s s' (? & ? & _). by apply registry_ok_frame. }
  apply (pres_call _ _ (λ _, True)).
  - intros l t p. apply inv_modify. intros s. by apply registry_ok_frame.
  - intros h n. apply pres_frame; [apply migrate_up_frame | done].
  - intros h p. apply pres_frame; [apply run_seed_frame | done].
  - intros. apply pres_frame; [apply insert_Tenant_frame | done].
  - intros. apply pres_frame; [apply create_database_frame | done].
  - intros sub s Hs. split; [|done].
    destruct (createTenantConnection_cases sub s) as [->|[e ->]]; [|done].
    by apply registry_ok_connected.
  - done.
  - intros c p. apply pres_importModels_frame.
    intros s s' ? ? _. by apply registry_ok_frame.
  - intros sub o s _. by apply registry_ok_fields.
  - intros o s. by apply registry_ok_fields.
  - intros r s _. by apply registry_ok_fields.
Qed.

Lemma registry_ok_constructor knexConfig modelsPath w :
  registry_ok (constructor knexConfig modelsPath w).
Proof.
  split; simpl.
  - rewrite length_app. simpl. lia.
  - done.
  - intros h k Hk Hlt. apply lookup_lt_Some in Hk.
    rewrite length_app in Hk. simpl in Hk. lia.
Qed.

Lemma registry_ok_constructor_split c1 c2 p1 p2 w :
  registry_ok (constructor_split c1 c2 p1 p2 w).
Proof.
  split; simpl.
  - rewrite length_app. simpl. lia.
  - done.
  - intros h k Hk Hlt. apply lookup_lt_Some in Hk.
    rewrite length_app in Hk. simpl in Hk. lia.
Qed.

Lemma reachable_registry_ok s : reachable s → registry_ok s.
Proof.
  induction 1 as [| |env op s _ IH].
  - apply registry_ok_constructor.
  - apply registry_ok_constructor_split.
  - by apply (pres_state _ _ _ (registry_ok_call env op)).
Qed.

(** ** Plans and their application *)

Lemma connects_acquire s h c d :
  connects s h c d → acquire h s = (Ok (c, d), s).
Proof. intros [Hk Hd]. by apply (acquire_Ok h s (mkKnex c false) d). Qed.

Lemma connects_frame s s' h c d :
  same_but_databases s s' →
  databases (world s') !! database c = Some d →
  knexes (world s) !! h = Some (mkKnex c false) →
  connects s' h c d.
Proof. intros (_ & Hk & _) Hd Hh. split; [by rewrite Hk | done]. Qed.

Lemma same_but_databases_trans s1 s2 s3 :
  same_but_databases s1 s2 → same_but_databases s2 s3 →
  same_but_databases s1 s3.
Proof.
  intros (A1 & A2 & A3 & A4 & A5 & A6) (B1 & B2 & B3 & B4 & B5 & B6).
  repeat split; congruence.
Qed.

Lemma extend_ledger_nil d : extend_ledger d [] = d.
Proof. destruct d. unfold extend_ledger. simpl. by rewrite app_nil_r. Qed.

Lemma extend_ledger_cons d u l :
  extend_ledger (extend_ledger d [u]) l = extend_ledger d (u :: l).
Proof. unfold extend_ledger. simpl. by rewrite <- app_assoc. Qed.

Lemma filter_all {A} (P : A → Prop) `{∀ x, Decision (P x)} (l : list A) :
  Forall P l → filter P l = l.
Proof.
  induction 1 as [|x r Hx Hr IH]; [done|].
  by rewrite filter_cons_True, IH.
Qed.

Lemma pending_of_not_applied units applied u :
  u ∈ pending_of units applied → (u ∉ applied) ∧ u ∈ units.
Proof. unfold pending_of. by rewrite list_elem_of_filter. Qed.

Lemma pending_of_after units applied u r :
  NoDup units → pending_of units applied = u :: r →
  pending_of units (applied ++ [u]) = r.
Proof.
  intros Hnd Hp. unfold pending_of in *.
  assert (Hnd' : NoDup (u :: r)).
  { rewrite <- Hp. by apply NoDup_filter. }
  apply NoDup_cons in Hnd' as [Hu Hr].
  transitivity (filter (λ x, x ≠ u) (filter (λ x, x ∉ applied) units)).
  - rewrite list_filter_filter. apply list_filter_iff. intros x.
    rewrite elem_of_app, list_elem_of_singleton. tauto.
  - rewrite Hp, filter_cons_False by (intros ?; done).
    apply filter_all, Forall_forall. intros x Hx ->. done.
Qed.

Lemma up_prefix_spec fault plan applied failure :
  up_prefix fault plan = (applied, failure) →
  Forall (λ u, fault u = None) applied
  ∧ match failure with
    | Some (u, e) => fault u = Some e ∧ ∃ rest, plan = applied ++ u :: rest
    | None => plan = applied
    end.
Proof.
  revert applied failure. induction plan as [|u r IH]; simpl.
  - by intros ? ? [= <- <-].
  - intros applied failure. destruct (fault u) as [e|] eqn:Hu.
    + intros [= <- <-]. split; [done|]. split; [done|]. by exists r.
    + destruct (up_prefix fault r) as [a f]. intros [= <- <-].
      destruct (IH a f eq_refl) as [Ha Hf]. split; [by constructor|].
      destruct f as [[v e]|]; [|by subst].
      destruct Hf as [Hv [rest ->]]. split; [done|]. by exists rest.
Qed.

Lemma migrate_up_pending env h c d u r s :
  connects s h c d →
  pending_of (migration_units env (migrations_directory c)) (ledger d) = u :: r →
  migrate_up env h (js_or (Some u) None) s = run_up env (database c) d u s.
Proof.
  intros Hc Hp.
  assert (Hu : (u ∉ ledger d) ∧ u ∈ migration_units env (migrations_directory c)).
  { apply pending_of_not_applied. rewrite Hp. by left. }
  unfold migrate_up. rewrite (bind_Ok _ _ _ _ _ (connects_acquire _ _ _ _ Hc)).
  unfold js_or. case_decide.
  - by rewrite Hp.
  - rewrite bool_decide_false, bool_decide_true by tauto. done.
Qed.

(** Applying a plan: the units run in the plan's order, each success is
    recorded before the next unit starts, the first failure ends the run
    with the value the unit threw. *)
Lemma apply_plan_run env h c plan :
  NoDup (migration_units env (migrations_directory c)) →
  ∀ s d,
    connects s h c d →
    pending_of (migration_units env (migrations_directory c)) (ledger d) = plan →
    ∃ s',
      apply_plan env h (as_pending plan) s
      = (outcome (up_prefix (up_fault env (database c)) plan).2, s')
      ∧ same_but_databases s s'
      ∧ databases (world s')
        = <[database c :=
              extend_ledger d (up_prefix (up_fault env (database c)) plan).1]>
            (databases (world s)).
Proof.
  intros Hnd. unfold apply_plan.
  induction plan as [|u r IH]; intros s d Hc Hp.
  - exists s. split; [done|]. split; [apply same_but_databases_refl|].
    simpl. rewrite extend_ledger_nil. symmetry. apply insert_id, Hc.
  - change (as_pending (u :: r)) with (IMigration.mk (Some u) None :: as_pending r).
    cbn [for_of IMigration.file IMigration.name up_prefix].
    unfold bind at 1. rewrite (migrate_up_pending _ _ _ _ _ _ _ Hc Hp).
    unfold run_up.
    destruct (up_fault env (database c) u) as [e|] eqn:Hf.
    + exists s. split; [done|]. split; [apply same_but_databases_refl|].
      simpl. rewrite extend_ledger_nil. symmetry. apply insert_id, Hc.
    + set (s1 := on_world (set_databases (<[database c := extend_ledger d [u]]>)) s).
      destruct (IH s1 (extend_ledger d [u])) as (s' & Hrun & Hsame & Hdb).
      { split; [apply Hc | apply lookup_insert_eq]. }
      { simpl. by apply pending_of_after. }
      exists s'. destruct (up_prefix (up_fault env (database c)) r) as [a f].
      split; [exact Hrun|]. split.
      * eapply same_but_databases_trans; [|done]. by repeat split.
      * rewrite Hdb. simpl. by rewrite insert_insert_eq, extend_ledger_cons.
Qed.

(** What [_initializeMigrations] returns on a reachable database. *)
Lemma initializeMigrations_run env h c d s :
  connects s h c d →
  let plan := pending_of (migration_units env (migrations_directory c))
                (ledger d) in
  let s1 :=
    on_world (set_console (λ l, l ++ [mkLog LOG "pendingMigrations v1.1.0"
                                        (PMigrations (as_pending plan))])) s in
  _initializeMigrations env h s
  = match plan with
    | [] =>
        (Ok None,
         on_world (set_console (λ l, l ++ [mkLog LOG
           "No new migrations to run. Migrations are already up to date."
           PNone])) s1)
    | _ => (Ok (Some (apply_plan env h (as_pending plan))), s1)
    end.
Proof.
  intros Hc plan s1. unfold _initializeMigrations.
  assert (Hl : migrate_list env h s
    = (Ok (map (λ n, IMigration.mk None (Some n)) (ledger d), as_pending plan),
       s)).
  { unfold migrate_list.
    rewrite (bind_Ok _ _ _ _ _ (connects_acquire _ _ _ _ Hc)). done. }
  unfold try_catch. rewrite (bind_Ok _ _ _ _ _ Hl). simpl.
  unfold bind at 1, console_write at 1, modify at 1. fold s1.
  subst plan. destruct (pending_of _ _) as [|u r]; simpl; done.
Qed.

Lemma filter_none {A} (P : A → Prop) `{∀ x, Decision (P x)} (l : list A) :
  Forall (λ x, ¬ P x) l → filter P l = [].
Proof.
  induction 1 as [|x r Hx Hr IH]; [done|].
  by rewrite filter_cons_False.
Qed.

(** Once a whole plan is applied nothing is pending. *)
Lemma pending_of_applied units applied :
  pending_of units (applied ++ pending_of units applied) = [].
Proof.
  unfold pending_of. apply filter_none, Forall_forall. intros x Hx Hn.
  apply Hn, elem_of_app. destruct (decide (x ∈ applied)); [by left|].
  right. by apply list_elem_of_filter.
Qed.

(** ** C3: the sequence of one connection *)



(** With pending units [A, B, C] and [B] failing, the ledger ends as [A] and
    the caller gets what [B] threw. *)
Example migrations_A_B_C :
  let env := demo_env (fails_at "main" "B" boom) in
  ∃ run s1,
    _initializeMigrations env 0 demo_start = (Ok (Some run), s1)
    ∧ (run s1).1 = Throw boom
    ∧ ledger <$> databases (world (run s1).2) !! "main" = Some ["A"].
Proof.
  simpl. eexists _, _. split.
  - rewrite (initializeMigrations_run _ 0 demo_config (mkDatabase [] [] []));
      [reflexivity | split; reflexivity].
  - split; vm_compute; reflexivity.
Qed.


(** ** C8: nothing pending *)



(** Migrating twice: after a run in which every unit succeeded, the next
    plan is empty. *)
Lemma migrated_means_up_to_date env s h c d s2 :
  connects s h c d →
  NoDup (migration_units env (migrations_directory c)) →
  let plan := pending_of (migration_units env (migrations_directory c))
                (ledger d) in
  apply_plan env h (as_pending plan) s = (Ok tt, s2) →
  ∃ d2, connects s2 h c d2
        ∧ pending_of (migration_units env (migrations_directory c)) (ledger d2)
          = [].
Proof.
  intros Hc Hnd plan Hrun.
  destruct (apply_plan_run env h c plan Hnd s d Hc eq_refl)
    as (s' & Hrun' & Hsame & Hdb).
  rewrite Hrun in Hrun'.
  destruct (up_prefix (up_fault env (database c)) plan) as [applied failure]
    eqn:Hpre.
  destruct (up_prefix_spec _ _ _ _ Hpre) as [_ Hfail]. simpl in *.
  destruct failure as [[u e]|]; [done|]. injection Hrun' as <-. subst applied.
  exists (extend_ledger d plan). split.
  - eapply connects_frame; [done| |apply Hc]. rewrite Hdb. apply lookup_insert_eq.
  - apply pending_of_applied.
Qed.

(** ** C9: the active context at start *)

Lemma snoc_lookup_last2 {A} (l : list A) (x y : A) :
  ((l ++ [x]) ++ [y]) !! S (length l) = Some y.
Proof.
  rewrite lookup_app_r; rewrite length_app; simpl; [|lia].
  by replace (S (length l) - (length l + 1)) with 0 by lia.
Qed.

Lemma snoc_lookup_first2 {A} (l : list A) (x y : A) :
  ((l ++ [x]) ++ [y]) !! length l = Some x.
Proof.
  rewrite lookup_app_l by (rewrite length_app; simpl; lia).
  rewrite lookup_app_r by lia. by rewrite Nat.sub_diag.
Qed.

Lemma buildMainORM_run env s :
  buildMainORM env s
  = (Ok tt,
     on_this (set_mainORM (length (orms (world s))))
       (imported env (systemKnex (this s)) (systemModelsPath (this s)) s)).
Proof.
  unfold buildMainORM, bind at 1 2, gets. simpl.
  by rewrite (bind_Ok _ _ _ _ _ (importModels_run env _ _ s)).
Qed.

(** C9, on the code.  After the constructor and [buildMainORM] the system
    binding is a new object held in [mainORM], while [currentORM] still is
    the empty object the constructor made: [getCurrentORM] returns that empty
    object, in both variants of the class. *)
Theorem buildMainORM_leaves_context_stale env c1 c2 p1 p2 w :
  (let s := after (buildMainORM env) (constructor c1 p1 w) in
   mainORM (this s) = S (length (orms w))
   ∧ orms (world s) !! mainORM (this s) = Some (binding_of env p1)
   ∧ getCurrentORM s = (Ok (Ref (length (orms w))), s)
   ∧ orms (world s) !! length (orms w) = Some [])
  ∧ (let s := after (buildMainORM env) (constructor_split c1 c2 p1 p2 w) in
     mainORM (this s) = S (length (orms w))
     ∧ orms (world s) !! mainORM (this s) = Some (binding_of env p1)
     ∧ getCurrentORM s = (Ok (Ref (length (orms w))), s)
     ∧ orms (world s) !! length (orms w) = Some []).
Proof.
  assert (Hcur : ∀ s0, currentORM (this s0) = Ref (length (orms w)) →
    let s := on_this (set_mainORM (S (length (orms w))))
               (imported env (systemKnex (this s0)) p1 s0) in
    getCurrentORM s = (Ok (Ref (length (orms w))), s)).
  { intros s0 H0 s. unfold getCurrentORM, bind, gets. subst s. simpl.
    by rewrite imported_this, H0. }
  unfold after. rewrite !buildMainORM_run. simpl.
  rewrite !imported_orms. simpl. rewrite !length_app. simpl.
  rewrite !Nat.add_1_r.
  split; (split; [done|]); (split; [|split]).
  - apply snoc_lookup_last2.
  - by apply (Hcur (constructor c1 p1 w)).
  - apply snoc_lookup_first2.
  - apply snoc_lookup_last2.
  - by apply (Hcur (constructor_split c1 c2 p1 p2 w)).
  - apply snoc_lookup_first2.
Qed.

(** In the demo installation: the system binding has [Tenant], what
    [getCurrentORM] returns has not. *)
Example stale_context_demo :
  let s := after (buildMainORM (demo_env no_fault)) demo_start in
  getCurrentORM s = (Ok (Ref 0), s)
  ∧ orms (world s) !! 0 = Some []
  ∧ mainORM (this s) = 1
  ∧ (orms (world s) !! 1 ≫= λ props, own_get props "Tenant")
    = Some ("models/tenant.model.ts", "Tenant").
Proof. vm_compute. repeat split. Qed.

(** ** C6: switching the context *)


Lemma connected_world sub s :
  let w' := world (connected sub s) in
  orms w' = orms (world s) ∧ class_knex w' = class_knex (world s)
  ∧ class_assoc w' = class_assoc (world s)
  ∧ databases w' = databases (world s) ∧ console w' = console (world s).
Proof. unfold connected. simpl. by destruct (own_get _ sub). Qed.


(** Names inherited from [Object.prototype] are never registered: a
    connection is stored only by [_createTenantConnection], which throws on
    such a name before it stores anything, and a binding is stored only
    under a name that has just got a connection. *)
Lemma no_inherited_keys_fields s s' :
  tenantConnections (this s') = tenantConnections (this s) →
  tenantORMs (this s') = tenantORMs (this s) →
  no_inherited_keys s → no_inherited_keys s'.
Proof. unfold no_inherited_keys. by intros -> ->. Qed.

Lemma no_inherited_keys_createTenantConnection sub :
  inv no_inherited_keys (_createTenantConnection sub)
    (λ _, sub ∉ Object_prototype).
Proof.
  intros s Hs.
  destruct (js_get (tenantConnections (this s)) sub) as [h|k|] eqn:Hg.
  - assert (Hsub : sub ∉ Object_prototype).
    { intros Hin. destruct (Hs sub Hin) as [Hc _].
      unfold js_get in Hg. by rewrite Hc in Hg; case_bool_decide. }
    rewrite createTenantConnection_Ok by (intros k; by rewrite Hg).
    split; [|done]. intros k Hk. destruct (Hs k Hk) as [Hc Ho].
    unfold connected. simpl. split; [|done].
    rewrite own_get_obj_set_ne; [done|]. by intros ->.
  - by rewrite (createTenantConnection_Inherited sub s k).
  - assert (Hsub : sub ∉ Object_prototype).
    { unfold js_get in Hg. destruct (own_get _ sub); [done|].
      by case_bool_decide. }
    rewrite createTenantConnection_Ok by (intros k; by rewrite Hg).
    split; [|done]. intros k Hk. destruct (Hs k Hk) as [Hc Ho].
    unfold connected. simpl. split; [|done].
    rewrite own_get_obj_set_ne; [done|]. by intros ->.
Qed.

Lemma no_inherited_keys_call env op : pres no_inherited_keys (call env op).
Proof.
  assert (Hfr : ∀ s s', this s' = this s →
                        no_inherited_keys s → no_inherited_keys s').
  { unfold no_inherited_keys. by intros s s' ->. }
  apply (pres_call _ _ (λ sub, sub ∉ Object_prototype)).
  - intros l t p. by apply inv_modify.
  - intros h n. apply pres_frame; [apply migrate_up_frame|].
    intros s s' (? & _). by apply Hfr.
  - intros h p. apply pres_frame; [apply run_seed_frame|].
    intros s s' (? & _). by apply Hfr.
  - intros. apply pres_frame; [apply insert_Tenant_frame|].
    intros s s' (? & _). by apply Hfr.
  - intros. apply pres_frame; [apply create_database_frame|].
    intros s s' (? & _). by apply Hfr.
  - apply no_inherited_keys_createTenantConnection.
  - intros s sub Hs [h Hh] Hin. destruct (Hs sub Hin) as [Hc _]. congruence.
  - intros c p. apply pres_importModels_frame. intros s s' ? _ _. by apply Hfr.
  - intros sub o s Hsub Hs k Hk. destruct (Hs k Hk) as [Hc Ho]. simpl.
    split; [done|]. rewrite own_get_obj_set_ne; [done|]. by intros ->.
  - intros o s. by apply no_inherited_keys_fields.
  - intros r s _. by apply no_inherited_keys_fields.
Qed.

Lemma reachable_no_inherited_keys s : reachable s → no_inherited_keys s.
Proof.
  induction 1 as [| |env op s _ IH]; [done..|].
  by apply (pres_state _ _ _ (no_inherited_keys_call env op)).
Qed.


(** C6, on the code.  In every reachable state, for a name that every plain
    object inherits from [Object.prototype]: no binding is known for the
    name, yet the lookup [this.tenantORMs[subdomain]] is truthy, so the
    method does not throw the unknown-tenant error but runs on into
    [_createTenantConnection], which throws a [TypeError]. *)
Theorem setCurrentTenantConnection_inherited_key env sub s :
  reachable s →
  sub ∈ Object_prototype →
  own_get (tenantORMs (this s)) sub = None
  ∧ setCurrentTenantConnection env sub s
    = (Throw (TypeError
                "this.tenantConnections[subdomain].destroy is not a function"),
       s)
  ∧ (setCurrentTenantConnection env sub s).1 ≠ Throw (UnknownTenantError sub).
Proof.
  intros Hs Hp.
  destruct (reachable_no_inherited_keys s Hs sub Hp) as [Hc Ho].
  split; [done|].
  assert (Hrun : setCurrentTenantConnection env sub s
    = (Throw (TypeError
                "this.tenantConnections[subdomain].destroy is not a function"),
       s)).
  { unfold setCurrentTenantConnection, bind at 1, gets at 1.
    unfold js_get at 1. rewrite Ho, bool_decide_true by done. simpl.
    apply bind_Throw.
    apply (createTenantConnection_Inherited sub s sub).
    unfold js_get. by rewrite Hc, bool_decide_true. }
  split; [done|]. rewrite Hrun. simpl. discriminate.
Qed.

Lemma setCurrentTenantConnection_inherited_key_witness :
  own_get (tenantORMs (this demo_fleet)) "constructor" = None
  ∧ setCurrentTenantConnection (demo_env no_fault) "constructor" demo_fleet
    = (Throw (TypeError
                "this.tenantConnections[subdomain].destroy is not a function"),
       demo_fleet)
  ∧ (setCurrentTenantConnection (demo_env no_fault) "constructor"
       demo_fleet).1
    ≠ Throw (UnknownTenantError "constructor").
Proof.
  apply setCurrentTenantConnection_inherited_key.
  - unfold demo_fleet. do 3 apply reach_call. apply reach_constructor_split.
  - apply (bool_decide_unpack _). vm_compute. exact I.
Defined.

(** ** C1: bindings and the classes they hold *)

Lemma own_get_foldl_obj_set {V} (cs : list (string * V)) (acc : list (string * V))
    n v :
  own_get (foldl (λ props nc, obj_set props nc.1 nc.2) acc cs) n = Some v →
  (n, v) ∈ cs ∨ own_get acc n = Some v.
Proof.
  revert acc. induction cs as [|[k x] r IH]; intros acc; simpl; [by right|].
  intros H. destruct (IH _ H) as [Hin|Hacc]; [left; by right|].
  rewrite own_get_obj_set in Hacc. case_decide; [|by right].
  injection Hacc as <-. subst. left. by left.
Qed.

Lemma binding_of_classes env p n cls :
  own_get (binding_of env p) n = Some cls → cls ∈ (model_classes env p).*2.
Proof.
  intros H. apply own_get_foldl_obj_set in H as [H|H]; [|done].
  apply list_elem_of_fmap. by exists (n, cls).
Qed.

(** What [_importModels] establishes: a new binding object whose classes all
    query through the given connection. *)
Lemma importModels_binds env c p s n cls :
  own_get (binding_of env p) n = Some cls →
  routes_to (world (imported env c p s)) (length (orms (world s))) n = Some c.
Proof.
  intros H. unfold routes_to. rewrite imported_orms.
  rewrite lookup_app_r, Nat.sub_diag by lia. simpl. rewrite H. simpl.
  rewrite imported_class_knex, bool_decide_true; [done|].
  by eapply binding_of_classes.
Qed.

(** The classes are the modules' own: a binding built earlier from the same
    directory holds the same classes, and after the next import they query
    through the new connection. *)
Lemma importModels_rebinds env c1 c2 p s n cls :
  own_get (binding_of env p) n = Some cls →
  let s1 := imported env c1 p s in
  let s2 := imported env c2 p s1 in
  routes_to (world s2) (length (orms (world s))) n = Some c2
  ∧ routes_to (world s2) (length (orms (world s1))) n = Some c2.
Proof.
  intros H s1 s2. split; [|by eapply importModels_binds].
  unfold routes_to. subst s2. rewrite imported_orms. subst s1.
  rewrite imported_orms.
  rewrite lookup_app_l by (rewrite length_app; simpl; lia).
  rewrite lookup_app_r, Nat.sub_diag by lia. simpl. rewrite H. simpl.
  rewrite imported_class_knex, bool_decide_true; [done|].
  by eapply binding_of_classes.
Qed.

Lemma wire_steps_class_assoc env o ks s cls o' :
  class_assoc (world (foldl (wire_step env o) s ks)) !! cls = Some o' →
  o' = o ∨ class_assoc (world s) !! cls = Some o'.
Proof.
  revert s. induction ks as [|k r IH]; intros s; simpl; [by right|].
  intros H. destruct (IH _ H) as [->|H']; [by left|].
  unfold wire_step in H'.
  destruct (orms (world s) !! o ≫= λ props, own_get props k) as [c0|];
    [|by right].
  destruct (declares_associate env c0); [|by right]. simpl in H'.
  destruct (decide (c0 = cls)) as [->|Hne].
  - rewrite lookup_insert_eq in H'. injection H' as <-. by left.
  - rewrite lookup_insert_ne in H' by done. by right.
Qed.

(** The part of C1 that holds: whatever [associate] hook runs during an
    import is handed the binding that very import builds. *)
Lemma importModels_wires_own_binding env c p s cls o' :
  class_assoc (world (imported env c p s)) !! cls = Some o' →
  o' = length (orms (world s)) ∨ class_assoc (world s) !! cls = Some o'.
Proof.
  unfold imported. intros H.
  apply wire_steps_class_assoc in H as [->|H]; [by left|]. right.
  rewrite bind_steps_class_assoc in H.
  destruct (announce_world p (on_world (set_orms (λ l, l ++ [[]])) s))
    as (_ & _ & _ & E & _).
  by rewrite E in H.
Qed.

(** C1, on the code.  Two tenants provisioned one after the other (split
    variant): each has its own binding object and its own connection, but
    both bindings hold the one [User] class of the tenant models directory,
    which queries through the connection of the tenant imported last and
    whose associations were wired through that tenant's binding.  Selecting
    the first tenant's stored binding gives a context that reaches the second
    tenant's database. *)
Theorem first_tenant_binding_reaches_second_tenant :
  let env := demo_env no_fault in
  let s :=
    after (createTenant env "t2")
      (after (createTenant env "t1")
         (after (buildMainORM env) demo_start_split)) in
  ∃ o1 o2 h1 h2,
    own_get (tenantORMs (this s)) "t1" = Some o1
    ∧ own_get (tenantORMs (this s)) "t2" = Some o2
    ∧ o1 ≠ o2
    ∧ own_get (tenantConnections (this s)) "t1" = Some h1
    ∧ own_get (tenantConnections (this s)) "t2" = Some h2
    ∧ database_of (world s) h1 = Some "tenant_t1"
    ∧ database_of (world s) h2 = Some "tenant_t2"
    ∧ routes_to (world s) o1 "User" = Some h2
    ∧ class_assoc (world s) !! ("models/tenant/user.model.ts", "User")
      = Some o2
    ∧ (getCurrentORM (after (setCurrentORM "t1") s)).1 = Ok (Ref o1).
Proof.
  vm_compute. exists 2, 3, 2, 3. repeat split; discriminate.
Qed.

(** ** C5: the errors of provisioning *)

Lemma lower_ascii_idem a : lower_ascii (lower_ascii a) = lower_ascii a.
Proof. by destruct a as [[] [] [] [] [] [] [] []]. Qed.

Lemma same_letter_lower a b : same_letter a b → lower_ascii a = lower_ascii b.
Proof.
  intros [->|[[_ ->]|[_ ->]]]; [done| |]; by rewrite lower_ascii_idem.
Qed.

(** Names that differ only by letter case have the same subdomain form. *)
Lemma case_variant_toLowerCase s t :
  case_variant s t → toLowerCase s = toLowerCase t.
Proof.
  induction 1 as [|a b s t Hab _ IH]; simpl; [done|].
  by rewrite (same_letter_lower a b Hab), IH.
Qed.



(** In the split variant the second of two calls with names differing by
    case is a duplicate. *)
Example duplicate_in_split_variant :
  let env := demo_env no_fault in
  let s1 := after (createTenant env "Acme")
              (after (buildMainORM env) demo_start_split) in
  (createTenant env "acME" s1).1 = Throw DuplicateTenantError.
Proof. vm_compute. reflexivity. Qed.

(** C5, on the code.  Single-directory variant, two calls in a row with names
    differing by case: the first call ends by importing the models against
    the tenant's connection, which re-points the [Tenant] class held by the
    system binding; the insert of the second call goes to the tenant's own
    database, finds no such name there and succeeds; the error that comes out
    is the one of [CREATE DATABASE], not the duplicate error. *)
Theorem second_createTenant_not_a_duplicate :
  let env := demo_env no_fault in
  let s0 := after (buildMainORM env) demo_start in
  let s1 := after (createTenant env "Acme") s0 in
  let s2 := after (createTenant env "acme") s1 in
  (createTenant env "Acme" s0).1
  = Ok (iTenant.mk 1 "acme" "active" "acme" "tenant_acme")
  ∧ toLowerCase "Acme" = toLowerCase "acme"
  ∧ (routes_to (world s1) (mainORM (this s1)) "Tenant"
       ≫= database_of (world s1)) = Some "tenant_acme"
  ∧ (createTenant env "acme" s1).1
    = Throw (DatabaseError "database already exists" "42P04")
  ∧ (createTenant env "acme" s1).1 ≠ Throw DuplicateTenantError
  ∧ Tenants <$> databases (world s2) !! "tenant_acme"
    = Some [iTenant.mk 1 "acme" "active" "acme" "tenant_acme"].
Proof. vm_compute. repeat split; discriminate. Qed.

(** ** C10: the active context is never unset *)

(** C10 (as amended).  In every reachable state [currentORM] holds a
    reference (it is never [undefined] or [null]), so [getCurrentORM] does
    not throw and returns that reference. *)
Theorem active_context_never_unset s :
  reachable s →
  ref_truthy (currentORM (this s)) = true
  ∧ getCurrentORM s = (Ok (currentORM (this s)), s).
Proof.
  intros Hs. pose proof (reachable_context_set s Hs) as Hc.
  split; [done|]. unfold getCurrentORM, bind, gets. by rewrite Hc.
Qed.

Lemma active_context_never_unset_witness :
  ref_truthy (currentORM (this (after (buildMainORM (demo_env no_fault))
                                  demo_start))) = true
  ∧ getCurrentORM (after (buildMainORM (demo_env no_fault)) demo_start)
    = (Ok (currentORM (this (after (buildMainORM (demo_env no_fault))
                               demo_start))),
       after (buildMainORM (demo_env no_fault)) demo_start).
Proof.
  apply active_context_never_unset.
  apply (reach_call (demo_env no_fault) OBuildMainORM).
  apply reach_constructor.
Defined.

(** C10, the parts that fail.  What [getCurrentORM] returns need not be a
    binding object: after [setCurrentORM("constructor")] on a fresh instance
    it is the member every object inherits under that name.  And a
    reassignment need not bring a newly built binding: [setCurrentORM] puts
    back the binding stored at provisioning time. *)
Lemma active_context_need_not_be_a_new_binding :
  (∃ s, reachable s
        ∧ getCurrentORM s = (Ok (ProtoMember "constructor"), s)
        ∧ ∀ o, (getCurrentORM s).1 ≠ Ok (Ref o))
  ∧ (reachable demo_fleet
     ∧ currentORM (this demo_fleet) = Ref 0
     ∧ currentORM (this (after (setCurrentORM "t1") demo_fleet)) = Ref 2
     ∧ 2 < length (orms (world demo_fleet))).
Proof.
  split.
  - exists (call (demo_env no_fault) (OSetCurrentORM "constructor")
              demo_start).2.
    split; [apply reach_call, reach_constructor|].
    split; [reflexivity|]. intros o. vm_compute. discriminate.
  - split.
    { unfold demo_fleet. do 3 apply reach_call. apply reach_constructor_split. }
    vm_compute. repeat split; lia.
Qed.

(** ** C7: the connection registry *)



(** Re-opening the connection of [t1] in the demo fleet: handle 2 is
    destroyed, handle 4 is new and registered. *)
Example reopen_t1 :
  let r := _createTenantConnection "t1" demo_fleet in
  own_get (tenantConnections (this demo_fleet)) "t1" = Some 2
  ∧ r.1 = Ok 4
  ∧ destroyed <$> knexes (world r.2) !! 2 = Some true
  ∧ own_get (tenantConnections (this r.2)) "t1" = Some 4
  ∧ database_of (world r.2) 4 = Some "tenant_t1".
Proof. vm_compute. repeat split. Qed.

(** ** C4: what provisioning returns *)

Lemma registry_kept_refl s : registry_kept s s.
Proof. intros dbn d Hd. by exists d. Qed.

Lemma registry_kept_store s dbn d d' :
  databases (world s) !! dbn = Some d →
  (∀ row, row ∈ Tenants d → row ∈ Tenants d') →
  registry_kept s (store dbn d' s).2.
Proof.
  intros Hd Hsub x dx Hx. simpl. destruct (decide (x = dbn)) as [->|Hne].
  - exists d'. rewrite lookup_insert_eq. split; [done|].
    rewrite Hd in Hx. injection Hx as <-. done.
  - exists dx. by rewrite lookup_insert_ne.
Qed.

Lemma registry_kept_run_up env c d u s :
  databases (world s) !! database c = Some d →
  registry_kept s (run_up env (database c) d u s).2.
Proof.
  intros Hd. unfold run_up. destruct (up_fault env (database c) u);
    [apply registry_kept_refl | by apply (registry_kept_store _ _ d)].
Qed.

Ltac acquired h s k d Hk :=
  let Hacq := fresh "Hacq" in
  let c := fresh "c" in
  let e := fresh "e" in
  let s' := fresh "s" in
  destruct (acquire h s) as [[[c d]|e] s'] eqn:Hacq;
  [apply acquire_inv_Ok in Hacq as (-> & k & _ & _ & -> & Hk)
  |pose proof (acquire_state h s) as Hk; rewrite Hacq in Hk; simpl in Hk;
   subst; apply registry_kept_refl].

Lemma registry_kept_migrate_up env h n s :
  registry_kept s (migrate_up env h n s).2.
Proof.
  unfold migrate_up, bind. acquired h s k d Hk.
  destruct n as [n|].
  - case_bool_decide; [apply registry_kept_refl|].
    case_bool_decide; [by apply registry_kept_run_up | apply registry_kept_refl].
  - case_match; [apply registry_kept_refl | by apply registry_kept_run_up].
Qed.

Lemma registry_kept_run_seed env h p s :
  registry_kept s (run_seed env h p s).2.
Proof.
  unfold run_seed, bind. acquired h s k d Hk.
  case_match; [apply registry_kept_refl | by apply (registry_kept_store _ _ d)].
Qed.

Lemma registry_kept_create_database env h dbn s :
  registry_kept s (create_database env h dbn s).2.
Proof.
  unfold create_database, bind. acquired h s k d Hk.
  destruct (create_database_fault env dbn); [apply registry_kept_refl|].
  unfold gets. simpl.
  destruct (databases (world s) !! dbn) eqn:Hd; [apply registry_kept_refl|].
  intros x dx Hx. exists dx. split; [|done]. simpl.
  rewrite lookup_insert_ne; [done|]. intros <-. congruence.
Qed.

Lemma has_row_kept dbn row s s' :
  registry_kept s s' → has_row dbn row s → has_row dbn row s'.
Proof.
  intros Hk (d & Hd & Hrow). destruct (Hk dbn d Hd) as (d' & Hd' & Hsub).
  exists d'. auto.
Qed.




Lemma pres_True {A} (m : M A) : pres (λ _, True) m.
Proof. by intros s _. Qed.

Lemma provision_returns env sub t s t' s' :
  provision env sub t s = (Ok t', s') → t' = t.
Proof.
  intros H.
  assert (Hinv : inv (λ _, True) (provision env sub t) (λ a, a = t)).
  { unfold provision. repeat (eapply inv_bind; [apply pres_True|]; intros ? _).
    by apply inv_ret. }
  destruct (Hinv s I) as [_ Hr]. apply Hr. by rewrite H.
Qed.



(** ** C2: the fleet *)


















(** The fleet [t1] (clean), [t2] (unit [B] fails with an [Error]): [t1] gets
    all its units, [t2] keeps what it had, the failure is a warning on the
    console and the batch ends with its success line. *)
Example fleet_t1_clean_t2_failing :
  let r := migrateAllTenants (demo_env (fails_at "tenant_t2" "B" boom))
             demo_fleet in
  r.1 = Ok tt
  ∧ ledger <$> databases (world demo_fleet) !! "tenant_t1" = Some ["A"]
  ∧ ledger <$> databases (world demo_fleet) !! "tenant_t2" = Some ["A"]
  ∧ ledger <$> databases (world r.2) !! "tenant_t1" = Some ["A"; "B"; "C"]
  ∧ ledger <$> databases (world r.2) !! "tenant_t2" = Some ["A"]
  ∧ warned boom ∈ console (world r.2)
  ∧ last (console (world r.2))
    = Some (mkLog LOG "All tenant migrations completed successfully." PNone).
Proof.
  repeat split; try (vm_compute; reflexivity).
  apply (bool_decide_unpack _). vm_compute. exact I.
Qed.


(** * Further properties of the code *)

(** ** Which files are model files *)

Lemma substring_0_length s : substring 0 (String.length s) s = s.
Proof. induction s as [|c r IH]; simpl; [done|]. by rewrite IH. Qed.

Lemma string_length_app a b :
  String.length (a +:+ b) = (String.length a + String.length b)%nat.
Proof. induction a as [|c r IH]; simpl; [done|]. by rewrite IH. Qed.

Lemma substring_skip a n b :
  substring (String.length a) n (a +:+ b) = substring 0 n b.
Proof. induction a as [|c r IH]; simpl; [done|]. exact IH. Qed.

Lemma substring_split s n :
  s = substring 0 n s +:+ substring n (String.length s - n) s.
Proof.
  revert n. induction s as [|c r IH]; intros [|n]; try done.
  - change (String c r
            = String c (substring 0 (String.length r) r)).
    by rewrite substring_0_length.
  - change (String c r
            = String c (substring 0 n r
                        +:+ substring n (String.length r - n) r)).
    by rewrite <- IH.
Qed.

Lemma length_substring_le_length n m s :
  (String.length (substring n m s) ≤ String.length s)%nat.
Proof.
  revert n m. induction s as [|c r IH]; intros [|n] [|m]; simpl; try lia.
  - specialize (IH 0 m). lia.
  - specialize (IH n 0). lia.
  - specialize (IH n (S m)). lia.
Qed.

(** [file.slice(-9) === ".model.ts"] says that the name ends in
    [.model.ts]. *)
Lemma last9_model_ts file :
  last9 file = ".model.ts" ↔ ∃ stem, file = stem +:+ ".model.ts".
Proof.
  unfold last9. split.
  - intros H. exists (substring 0 (String.length file - 9) file).
    assert (Hlen : (9 ≤ String.length file)%nat).
    { pose proof (length_substring_le_length (String.length file - 9) 9 file)
        as Hle. rewrite H in Hle. exact Hle. }
    rewrite (substring_split file (String.length file - 9)) at 1.
    f_equal. rewrite <- H. f_equal. lia.
  - intros [stem ->]. rewrite string_length_app. simpl.
    replace (String.length stem + 9 - 9) with (String.length stem) by lia.
    by rewrite substring_skip.
Qed.

(** [file.indexOf(".") !== 0] says that the name does not start with a
    dot. *)
Lemma index_dot_0 file :
  index 0 "." file = Some 0 ↔ ∃ rest, file = "." +:+ rest.
Proof.
  destruct file as [|c r].
  - split; [done|]. by intros [rest ?].
  - cbn [index]. destruct (String.prefix "." (String c r)) eqn:Hp.
    + split; [intros _|done]. apply prefix_correct in Hp. simpl in Hp.
      exists r. injection Hp as ->. done.
    + split.
      * destruct (index 0 "." r); intros [=].
      * intros [rest E]. simpl in E. injection E as -> ->.
        assert (String.prefix "." (String "." rest) = true) as Ht.
        { apply (proj2 (prefix_correct "." (String "." rest))).
          by destruct rest. }
        change ("" +:+ rest) with rest in *. congruence.
Qed.

(** [file.indexOf(".test.ts") === -1] says that [.test.ts] occurs nowhere
    in the name. *)
Lemma index_test_ts file :
  index 0 ".test.ts" file = None ↔ ∀ m, substring m 8 file ≠ ".test.ts".
Proof.
  split.
  - intros H m. apply (index_correct3 0 m ".test.ts" file H); [done | lia].
  - intros H. destruct (index 0 ".test.ts" file) as [m|] eqn:E; [|done].
    apply index_correct1 in E. by destruct (H m).
Qed.

(** X1.  [_getModelFiles] keeps exactly the entries of the directory whose
    name ends in [.model.ts], does not start with a dot and has no
    [.test.ts] in it; the entries it keeps stay in the order of the
    listing. *)
Theorem getModelFiles_selects env dirPath file :
  (file ∈ _getModelFiles env dirPath ↔
     file ∈ readdirSync env dirPath
     ∧ (∃ stem, file = stem +:+ ".model.ts")
     ∧ (∀ rest, file ≠ "." +:+ rest)
     ∧ (∀ m, substring m 8 file ≠ ".test.ts"))
  ∧ sublist (_getModelFiles env dirPath) (readdirSync env dirPath).
Proof.
  split.
  - unfold _getModelFiles. rewrite list_elem_of_In, filter_In.
    rewrite <- list_elem_of_In. unfold is_model_file.
    rewrite !andb_true_iff, negb_true_iff, !bool_decide_eq_true,
      bool_decide_eq_false.
    rewrite last9_model_ts, index_dot_0, index_test_ts.
    split.
    + intros (Hin & (Hdot & Hend) & Htest). repeat split; try done.
      intros rest ->. apply Hdot. by exists rest.
    + intros (Hin & Hend & Hdot & Htest). repeat split; try done.
      intros [rest ->]. by apply (Hdot rest).
  - unfold _getModelFiles.
    induction (readdirSync env dirPath) as [|f r IH]; simpl; [done|].
    destruct (is_model_file f); by constructor.
Qed.

(** ** Selecting a context *)

(** The connection [_createTenantConnection] has just opened. *)
Lemma connected_handle sub s :
  knexes (world (connected sub s)) !! length (knexes (world s))
  = Some (mkKnex (with_database (tenantKnexConfig (this s))
                    ("tenant_" +:+ sub)) false).
Proof.
  unfold connected. simpl. apply list_lookup_middle.
  destruct (own_get (tenantConnections (this s)) sub); simpl;
    rewrite ?length_alter; reflexivity.
Qed.







(** ** The middlewares *)

(** [try { await m } catch (error) { return res...json(h error) } next()] *)
Lemma guarded_run {A} (m : M A) (h : Thrown → Reply) s :
  (let* answered :=
     try_catch (m ;; ret None) (λ error, ret (Some (h error))) in
   match answered with
   | Some reply => ret reply
   | None => ret Next
   end) s
  = match m s with
    | (Ok _, s') => (Ok Next, s')
    | (Throw e, s') => (Ok (h e), s')
    end.
Proof. unfold bind, try_catch, ret. by destruct (m s) as [[a|e] s']. Qed.

(** X4.  The header-only [tenantMiddleware] never throws: it answers or
    hands over.  Without a usable [X-Tenant-Id] header it answers 400
    "Missing X-Tenant-Id header" and does not touch the instance; it hands
    over only when [setCurrentTenantConnection] has succeeded on the first
    value of the header; every answer it gives has status 400, and an answer
    given after the header was read carries the message of the error
    [setCurrentTenantConnection] threw. *)
Theorem tenantMiddleware_answers_or_hands_over env req s :
  let tenantId := js_string (header_first (x_tenant_id req)) in
  ∃ reply s',
    HeaderOnly.tenantMiddleware env req s = (Ok reply, s')
    ∧ (header_truthy (x_tenant_id req) = false →
       reply = Responded 400 "Missing X-Tenant-Id header" ∧ s' = s)
    ∧ (reply = Next →
       header_truthy (x_tenant_id req) = true
       ∧ setCurrentTenantConnection env tenantId s = (Ok tt, s'))
    ∧ (∀ status msg, reply = Responded status msg →
       status = 400
       ∧ (header_truthy (x_tenant_id req) = true →
          ∃ e, setCurrentTenantConnection env tenantId s = (Throw e, s')
               ∧ msg = message e)).
Proof.
  intros tenantId. unfold HeaderOnly.tenantMiddleware.
  destruct (header_truthy (x_tenant_id req)) eqn:Hh; simpl.
  - rewrite guarded_run. fold tenantId.
    destruct (setCurrentTenantConnection env tenantId s) as [[[]|e] s'].
    + exists Next, s'. repeat split; try done.
    + exists (Responded 400 (message e)), s'.
      split; [done|]. split; [done|]. split; [done|].
      intros status msg [= <- <-]. split; [done|]. intros _. by exists e.
  - exists (Responded 400 "Missing X-Tenant-Id header"), s.
    split; [done|]. split; [done|]. split; [done|].
    intros status msg [= <- <-]. done.
Qed.



(** A name without the separator is one piece. *)
Lemma split_one sep s :
  (∀ a b, s ≠ a +:+ String sep b) → split sep s = [s].
Proof.
  induction s as [|c r IH]; intros Hs; cbn [split]; [done|].
  case_decide as Hc.
  - subst c. by destruct (Hs "" r).
  - rewrite IH; [done|]. intros a b ->. by apply (Hs (String c a) b).
Qed.

Lemma split_cons sep c r :
  c ≠ sep →
  split sep (String c r)
  = match split sep r with
    | w :: ws => String c w :: ws
    | [] => [String c EmptyString]
    end.
Proof. intros Hc. cbn [split]. by rewrite decide_False. Qed.

(** The token of ["Bearer " + tok]. *)
Lemma bearer_token tok :
  (∀ a b, tok ≠ a +:+ " " +:+ b) →
  split " " ("Bearer " +:+ tok) !! 1 = Some tok.
Proof.
  intros Htok.
  change ("Bearer " +:+ tok)
    with (String "B" (String "e" (String "a" (String "r" (String "e"
            (String "r" (String " " tok))))))).
  rewrite !split_cons by done.
  assert (E : split " " (String " " tok) = "" :: split " " tok)
    by (cbn [split]; by rewrite decide_True).
  rewrite E, (split_one " " tok Htok). done.
Qed.

Lemma bearer_prefix tok : String.prefix "Bearer " ("Bearer " +:+ tok) = true.
Proof.
  apply prefix_correct. simpl. f_equal. by destruct tok.
Qed.

Lemma decode_bearer verify secret tok :
  (∀ a b, tok ≠ a +:+ " " +:+ b) →
  TokenOrHeader.decode_token verify secret (Some ("Bearer " +:+ tok))
  = match verify (Some tok) secret with
    | Some tenantId => inr tenantId
    | None => inl (Responded 401 "Invalid token")
    end.
Proof.
  intros Htok. unfold TokenOrHeader.decode_token.
  rewrite bearer_prefix, bool_decide_false by done. cbn [negb andb].
  by rewrite (bearer_token tok Htok).
Qed.

(** X6.  The token version of [tenantMiddleware], on a request with
    [Authorization: Bearer <token>] (a token without a space): the token is
    verified against the configured secret, the empty string when none was
    given.  When the verification fails the answer is 401 "Invalid token"
    and the instance is untouched, whatever [X-Tenant-Id] header the request
    carries besides. *)
Theorem tenantMiddleware_invalid_token env verify jwtSecret req s tok :
  authorization req = Some ("Bearer " +:+ tok) →
  (∀ a b, tok ≠ a +:+ " " +:+ b) →
  verify (Some tok) (default "" jwtSecret) = None →
  TokenOrHeader.tenantMiddleware env verify jwtSecret req s
  = (Ok (Responded 401 "Invalid token"), s).
Proof.
  intros Ha Htok Hv. unfold TokenOrHeader.tenantMiddleware.
  by rewrite Ha, (decode_bearer _ _ _ Htok), Hv.
Qed.

Lemma tenantMiddleware_invalid_token_witness :
  TokenOrHeader.tenantMiddleware (demo_env no_fault)
    (λ token secret,
       if bool_decide (token = Some "good" ∧ secret = "s3cret")
       then Some (Some "t1") else None)
    (Some "s3cret") (mkRequest (HString "t1") (Some "Bearer forged"))
    demo_fleet
  = (Ok (Responded 401 "Invalid token"), demo_fleet).
Proof.
  apply (tenantMiddleware_invalid_token _ _ _ _ _ "forged").
  - reflexivity.
  - intros a b E.
    assert (H : index 0 " " "forged" = None) by reflexivity.
    apply (index_correct3 0 (String.length a) " " "forged" H); [done|lia|].
    rewrite E. simpl. rewrite substring_skip. by destruct b.
  - reflexivity.
Defined.

(** X7.  In the token version an [X-Tenant-Id] header takes precedence over
    the token.  When the request has no [Authorization] header, or has
    [Authorization: Bearer <token>] with a token that verifies (whatever
    tenant id its payload carries), and the [X-Tenant-Id] header has a
    non-empty first value, the middleware does what the header-only version
    does on the same request: the tenant of the header is selected, the
    tenant id of the token is not used. *)
Theorem tenantMiddleware_header_overrides_token env verify jwtSecret req s :
  authorization req = None
  ∨ (∃ tok tokenTenant,
       authorization req = Some ("Bearer " +:+ tok)
       ∧ (∀ a b, tok ≠ a +:+ " " +:+ b)
       ∧ verify (Some tok) (default "" jwtSecret) = Some tokenTenant) →
  header_truthy (x_tenant_id req) = true →
  string_truthy (header_first (x_tenant_id req)) = true →
  TokenOrHeader.tenantMiddleware env verify jwtSecret req s
  = HeaderOnly.tenantMiddleware env req s.
Proof.
  intros Ha Hh Hf.
  assert (Hd : ∃ tokenTenant,
            TokenOrHeader.decode_token verify (default "" jwtSecret)
              (authorization req) = inr tokenTenant).
  { destruct Ha as [->|(tok & tid & -> & Htok & Hv)].
    - by exists None.
    - exists tid. by rewrite (decode_bearer _ _ _ Htok), Hv. }
  destruct Hd as [tid Hd].
  unfold TokenOrHeader.tenantMiddleware, HeaderOnly.tenantMiddleware.
  by rewrite Hd, Hh, Hf.
Qed.

Lemma tenantMiddleware_header_overrides_token_witness :
  TokenOrHeader.tenantMiddleware (demo_env no_fault)
    (λ token secret,
       if bool_decide (token = Some "good" ∧ secret = "s3cret")
       then Some (Some "t1") else None)
    (Some "s3cret") (mkRequest (HString "t2") (Some "Bearer good")) demo_fleet
  = HeaderOnly.tenantMiddleware (demo_env no_fault)
      (mkRequest (HString "t2") (Some "Bearer good")) demo_fleet.
Proof.
  apply tenantMiddleware_header_overrides_token; [|reflexivity..].
  right. exists "good", (Some "t1"). split; [reflexivity|].
  split; [|reflexivity]. intros a b E.
  assert (H : index 0 " " "good" = None) by reflexivity.
  apply (index_correct3 0 (String.length a) " " "good" H); [done|lia|].
  rewrite E. simpl. rewrite substring_skip. by destruct b.
Defined.

(** X8.  In the token version, a request without a usable [X-Tenant-Id]
    header whose bearer token verifies: the tenant is the [tenantId] of the
    token's payload, and the middleware does what the header-only version
    does on a request with that tenant in the header; when the payload has no
    (or an empty) [tenantId] the answer is 400 "Missing X-Tenant-Id header
    and token tenant ID" and the instance is untouched. *)
Theorem tenantMiddleware_tenant_of_token env verify jwtSecret req s tok
    tokenTenant :
  authorization req = Some ("Bearer " +:+ tok) →
  (∀ a b, tok ≠ a +:+ " " +:+ b) →
  verify (Some tok) (default "" jwtSecret) = Some tokenTenant →
  header_truthy (x_tenant_id req) = false →
  TokenOrHeader.tenantMiddleware env verify jwtSecret req s
  = match tokenTenant with
    | Some sub =>
        if bool_decide (sub = "") then
          (Ok (Responded 400 "Missing X-Tenant-Id header and token tenant ID"),
           s)
        else
          HeaderOnly.tenantMiddleware env
            (mkRequest (HString sub) (authorization req)) s
    | None =>
        (Ok (Responded 400 "Missing X-Tenant-Id header and token tenant ID"),
         s)
    end.
Proof.
  intros Ha Htok Hv Hh.
  unfold TokenOrHeader.tenantMiddleware, HeaderOnly.tenantMiddleware.
  rewrite Ha, (decode_bearer _ _ _ Htok), Hv, Hh.
  destruct tokenTenant as [sub|]; [|done]. simpl.
  by case_bool_decide.
Qed.

Lemma tenantMiddleware_tenant_of_token_witness :
  TokenOrHeader.tenantMiddleware (demo_env no_fault)
    (λ token secret,
       if bool_decide (token = Some "good" ∧ secret = "")
       then Some (Some "t1") else None)
    None (mkRequest HUndefined (Some "Bearer good")) demo_fleet
  = if bool_decide ("t1" = "") then
      (Ok (Responded 400 "Missing X-Tenant-Id header and token tenant ID"),
       demo_fleet)
    else
      HeaderOnly.tenantMiddleware (demo_env no_fault)
        (mkRequest (HString "t1") (Some "Bearer good")) demo_fleet.
Proof.
  apply (tenantMiddleware_tenant_of_token (demo_env no_fault) _ None
           (mkRequest HUndefined (Some "Bearer good")) demo_fleet "good"
           (Some "t1")).
  - reflexivity.
  - intros a b E.
    assert (H : index 0 " " "good" = None) by reflexivity.
    apply (index_correct3 0 (String.length a) " " "good" H); [done|lia|].
    rewrite E. simpl. rewrite substring_skip. by destruct b.
  - reflexivity.
  - reflexivity.
Defined.



(** ** Tools: running a method step by step *)

Lemma bind_gets {A B} (f : State → A) (k : A → M B) s :
  bind (gets f) k s = k (f s) s.
Proof. done. Qed.



(** Properties of the state that the storage layer and the console cannot
    break: they may look at which databases exist and at the registry rows,
    not at ledgers, seeds or console lines. *)
Section Stable.
Variable env : Env.
Variable J : State → Prop.
Hypothesis J_storage :
  ∀ s s', same_but_databases s s' → registry_kept s s' → J s → J s'.
Hypothesis J_console : ∀ l t p s, J s → J (console_write l t p s).2.

Lemma stable_console l t p : pres J (console_write l t p).
Proof. intros s Hs. split; [by apply J_console | done]. Qed.

Lemma stable_migrate_up h n : pres J (migrate_up env h n).
Proof.
  intros s Hs. split; [|done].
  eapply J_storage; [apply migrate_up_frame | apply registry_kept_migrate_up
                    | done].
Qed.

Lemma stable_run_seed h p : pres J (run_seed env h p).
Proof.
  intros s Hs. split; [|done].
  eapply J_storage; [apply run_seed_frame | apply registry_kept_run_seed
                    | done].
Qed.

Lemma stable_create_database h dbn : pres J (create_database env h dbn).
Proof.
  intros s Hs. split; [|done].
  eapply J_storage; [apply create_database_frame
                    | apply registry_kept_create_database | done].
Qed.

Lemma stable_initializeMigrations c :
  inv J (_initializeMigrations env c) (keeps_if_any J).
Proof.
  apply pres_initializeMigrations;
    [apply stable_console | apply stable_migrate_up].
Qed.

Lemma stable_initializeSeeders c g :
  inv J (_initializeSeeders env c g) (pres J).
Proof.
  apply pres_initializeSeeders; [apply stable_console | apply stable_run_seed].
Qed.

End Stable.

(** ** Seeds *)

Lemma extend_seeded_nil d : extend_seeded d [] = d.
Proof. destruct d. unfold extend_seeded. simpl. by rewrite app_nil_r. Qed.

Lemma extend_seeded_cons d p l :
  extend_seeded (extend_seeded d [p]) l = extend_seeded d (p :: l).
Proof. unfold extend_seeded. simpl. by rewrite <- app_assoc. Qed.

Lemma seed_paths_cons env dir f r :
  seed_paths env dir (f :: r)
  = if exports_seed env (path_join dir f)
    then path_join dir f :: seed_paths env dir r
    else seed_paths env dir r.
Proof.
  unfold seed_paths. cbn [map]. rewrite filter_cons.
  destruct (exports_seed env (path_join dir f)) eqn:E.
  - by rewrite decide_True.
  - by rewrite decide_False.
Qed.

Lemma run_seeders_cons env h dir f r :
  run_seeders env h dir (f :: r)
  = if exports_seed env (path_join dir f)
    then (run_seed env h (path_join dir f) ;; run_seeders env h dir r)
    else run_seeders env h dir r.
Proof.
  unfold run_seeders. cbn [omap list_omap].
  by destruct (exports_seed env (path_join dir f)).
Qed.

(** The seeds run in the order of the listing, each one recorded when it
    has succeeded; the first failure ends the run with the value the seed
    threw. *)
Lemma run_seeders_run env h c dir files :
  ∀ s d,
    connects s h c d →
    ∃ s',
      run_seeders env h dir files s
      = (outcome (up_prefix (seed_fault env (database c))
                    (seed_paths env dir files)).2, s')
      ∧ same_but_databases s s'
      ∧ databases (world s')
        = <[database c :=
              extend_seeded d
                (up_prefix (seed_fault env (database c))
                   (seed_paths env dir files)).1]>
            (databases (world s)).
Proof.
  induction files as [|f r IH]; intros s d Hc.
  - exists s. split; [done|]. split; [apply same_but_databases_refl|].
    simpl. rewrite extend_seeded_nil. symmetry. apply insert_id, Hc.
  - rewrite run_seeders_cons, seed_paths_cons.
    destruct (exports_seed env (path_join dir f)); [|by apply IH].
    cbn [up_prefix]. unfold bind at 1, run_seed.
    rewrite (bind_Ok _ _ _ _ _ (connects_acquire _ _ _ _ Hc)).
    destruct (seed_fault env (database c) (path_join dir f)) as [e|] eqn:Hf.
    + exists s. split; [done|]. split; [apply same_but_databases_refl|].
      simpl. rewrite extend_seeded_nil. symmetry. apply insert_id, Hc.
    + set (s1 := on_world (set_databases
                   (<[database c := extend_seeded d [path_join dir f]]>)) s).
      destruct (IH s1 (extend_seeded d [path_join dir f]))
        as (s' & Hrun & Hsame & Hdb).
      { split; [apply Hc | apply lookup_insert_eq]. }
      exists s'.
      destruct (up_prefix (seed_fault env (database c)) (seed_paths env dir r))
        as [a fl].
      split; [exact Hrun|]. split.
      * eapply same_but_databases_trans; [|done]. by repeat split.
      * rewrite Hdb. simpl. by rewrite insert_insert_eq, extend_seeded_cons.
Qed.

Lemma initializeSeeders_run env h dir s :
  _initializeSeeders env h dir s
  = match readdir_seeds env dir with
    | Some files => (Ok (run_seeders env h dir files), s)
    | None =>
        let e := mkThrown true "ENOENT: no such file or directory"
                   (Some "ENOENT") in
        (Throw e,
         on_world (set_console
                     (λ c, c ++ [mkLog ERROR "Error initializing seeders:"
                                   (PThrown e)])) s)
    end.
Proof.
  unfold _initializeSeeders, try_catch, bind.
  by destruct (readdir_seeds env dir).
Qed.



(** ** Provisioning, step by step *)

(** A successful [createTenant], taken apart. *)
Lemma provision_Ok_inv env sub t s1 t' s' :
  provision env sub t s1 = (Ok t', s') →
  ∃ s2 f s4 s5 sd s6 s7,
    let h := length (knexes (world s2)) in
    let s3 := connected sub s2 in
    create_database env (systemKnex (this s1)) ("tenant_" +:+ sub) s1
    = (Ok tt, s2)
    ∧ _createTenantConnection sub s2 = (Ok h, s3)
    ∧ _initializeMigrations env h s3 = (Ok f, s4)
    ∧ (match f with Some run => run | None => ret tt end) s4 = (Ok tt, s5)
    ∧ _initializeSeeders env h
        (path_join (tenantModelsPath (this s3)) (tenantSeedRoute (this s3))) s5
      = (Ok sd, s6)
    ∧ sd s6 = (Ok tt, s7)
    ∧ s' = on_this (set_tenantORMs
                      (λ o, obj_set o sub (length (orms (world s7)))))
             (imported env h (tenantModelsPath (this s7)) s7)
    ∧ t' = t.
Proof.
  unfold provision. rewrite bind_gets. intros H.
  apply bind_inv_Ok in H as ([] & s2 & Hcd & H).
  apply bind_inv_Ok in H as (h & s3 & Hconn & H).
  destruct (createTenantConnection_cases sub s2) as [Hok|[e He]];
    [|by rewrite He in Hconn].
  rewrite Hok in Hconn. injection Hconn as <- <-.
  rewrite bind_gets in H.
  apply bind_inv_Ok in H as (f & s4 & Hplan & H).
  apply bind_inv_Ok in H as ([] & s5 & Hrun & H).
  apply bind_inv_Ok in H as (sd & s6 & Hsd & H).
  apply bind_inv_Ok in H as ([] & s7 & Hseed & H).
  rewrite bind_gets in H.
  rewrite (bind_Ok _ _ _ _ _ (importModels_run env _ _ s7)) in H.
  injection H as <- <-.
  by exists s2, f, s4, s5, sd, s6, s7.
Qed.

Lemma create_database_Ok_inv env h dbn s s2 :
  create_database env h dbn s = (Ok tt, s2) →
  same_but_databases s s2
  ∧ databases (world s) !! dbn = None
  ∧ databases (world s2) = <[dbn := mkDatabase [] [] []]> (databases (world s)).
Proof.
  intros H. pose proof (create_database_frame env h dbn s) as Hf.
  rewrite H in Hf. split; [done|]. revert H.
  unfold create_database. intros H.
  apply bind_inv_Ok in H as ([c d] & s0 & Hacq & H).
  apply acquire_inv_Ok in Hacq as (-> & _).
  destruct (create_database_fault env dbn); [done|].
  rewrite bind_gets in H.
  destruct (databases (world s) !! dbn); [done|].
  injection H as <-. done.
Qed.

(** The steps between opening the connection and importing the models keep
    what the storage layer and the console cannot break. *)
Lemma provision_steps_keep env (J : State → Prop) h g s3 f s4 s5 sd s6 s7 :
  (∀ s s', same_but_databases s s' → registry_kept s s' → J s → J s') →
  (∀ l t p s, J s → J (console_write l t p s).2) →
  _initializeMigrations env h s3 = (Ok f, s4) →
  (match f with Some run => run | None => ret tt end) s4 = (Ok tt, s5) →
  _initializeSeeders env h g s5 = (Ok sd, s6) →
  sd s6 = (Ok tt, s7) →
  J s3 → J s7.
Proof.
  intros Hst Hco Hplan Hrun Hsd Hseed H3.
  destruct (stable_initializeMigrations env J Hst Hco h s3 H3) as [H4 Hf].
  rewrite Hplan in H4, Hf. specialize (Hf f eq_refl).
  destruct (pres_run_if_any J f Hf s4 H4) as [H5 _]. rewrite Hrun in H5.
  destruct (stable_initializeSeeders env J Hst Hco h g s5 H5) as [H6 Hs].
  rewrite Hsd in H6, Hs. specialize (Hs sd eq_refl).
  destruct (Hs s6 H6) as [H7 _]. by rewrite Hseed in H7.
Qed.

Lemma register_tenant_this env sub s :
  this (register_tenant env sub s).2 = this s
  ∧ knexes (world (register_tenant env sub s).2) = knexes (world s).
Proof.
  assert (Hp : pres (λ s0, this s0 = this s ∧ knexes (world s0) = knexes (world s))
                 (register_tenant env sub)).
  { apply pres_register_tenant.
    - intros l t p. by apply inv_modify.
    - intros h n st sd db s0 [Ht Hk]. split; [|done].
      destruct (insert_Tenant_frame env h n st sd db s0) as (-> & -> & _).
      done. }
  by destruct (Hp s (conj eq_refl eq_refl)).
Qed.

(** What a successful provisioning leaves behind, by the states it went
    through. *)
Lemma provision_Ok_state env sub t s1 t' s' :
  provision env sub t s1 = (Ok t', s') →
  ∃ s2 s7,
    let h := length (knexes (world s2)) in
    same_but_databases s1 s2
    ∧ this s7 = this (connected sub s2)
    ∧ knexes (world s7) = knexes (world (connected sub s2))
    ∧ is_Some (databases (world s7) !! ("tenant_" +:+ sub))
    ∧ s' = on_this (set_tenantORMs
                      (λ o, obj_set o sub (length (orms (world s7)))))
             (imported env h (tenantModelsPath (this s7)) s7).
Proof.
  intros H.
  apply provision_Ok_inv in H
    as (s2 & f & s4 & s5 & sd & s6 & s7 & Hcd & _ & Hplan & Hrun & Hsd & Hseed
        & -> & _).
  apply create_database_Ok_inv in Hcd as (Hsame & _ & Hdb).
  exists s2, s7. split; [done|].
  set (s3 := connected sub s2) in *.
  pose (J := λ s0, this s0 = this s3
                   ∧ knexes (world s0) = knexes (world s3)
                   ∧ is_Some (databases (world s0) !! ("tenant_" +:+ sub))).
  assert (H7 : J s7).
  { eapply (provision_steps_keep env J _ _ s3 f s4 s5 sd s6 s7);
      [| |exact Hplan|exact Hrun|exact Hsd|exact Hseed|].
    - intros s0 s0' (Ht & Hk & _) Hkept (E1 & E2 & [d Hd]).
      split; [by rewrite Ht|]. split; [by rewrite Hk|].
      destruct (Hkept _ _ Hd) as (d' & Hd' & _). by exists d'.
    - intros l t0 p s0 H0. exact H0.
    - split; [done|]. split; [done|].
      destruct (connected_world sub s2) as (_ & _ & _ & E & _).
      unfold s3. rewrite E, Hdb, lookup_insert_eq. by eexists. }
  destruct H7 as (Ht7 & Hk7 & Hd7). done.
Qed.

(** X12.  When [createTenant] succeeds, the tenant is ready for use: a live
    connection to the database [tenant_<subdomain>] is registered under the
    lower-cased name, that database exists, a new binding built from the
    tenant models is stored under the name with every model querying through
    that connection, and [setCurrentORM] with the name followed by
    [getCurrentORM] gives that binding. *)
Theorem createTenant_provisions env name s tenant s' :
  createTenant env name s = (Ok tenant, s') →
  let sub := toLowerCase name in
  ∃ o h,
    own_get (tenantORMs (this s')) sub = Some o
    ∧ own_get (tenantConnections (this s')) sub = Some h
    ∧ knexes (world s') !! h
      = Some (mkKnex (with_database (tenantKnexConfig (this s))
                        ("tenant_" +:+ sub)) false)
    ∧ is_Some (databases (world s') !! ("tenant_" +:+ sub))
    ∧ orms (world s') !! o = Some (binding_of env (tenantModelsPath (this s)))
    ∧ (∀ n, is_Some (own_get (binding_of env (tenantModelsPath (this s))) n) →
            routes_to (world s') o n = Some h)
    ∧ (setCurrentORM sub ;; getCurrentORM) s'
      = (Ok (Ref o),
         on_world (set_console
                     (λ c, c ++ [mkLog LOG "currentORM" (PRef (Ref o))]))
           (on_this (set_currentORM (Ref o)) s')).
Proof.
  change (createTenant env name)
    with (bind (register_tenant env (toLowerCase name))
            (provision env (toLowerCase name))).
  intros H sub. apply bind_inv_Ok in H as (t & s1 & Hreg & Hprov).
  destruct (register_tenant_this env sub s) as [Ht1 Hk1].
  fold sub in Hreg, Hprov. rewrite Hreg in Ht1, Hk1. simpl in Ht1, Hk1.
  apply provision_Ok_state in Hprov
    as (s2 & s7 & (Ht2 & Hk2 & _) & Ht7 & Hk7 & Hd7 & ->).
  set (h := length (knexes (world s2))).
  set (o := length (orms (world s7))).
  assert (Hcfg : tenantKnexConfig (this s2) = tenantKnexConfig (this s))
    by by rewrite Ht2, Ht1.
  assert (Hpath : tenantModelsPath (this s7) = tenantModelsPath (this s)).
  { rewrite Ht7. simpl. by rewrite Ht2, Ht1. }
  exists o, h. split; [apply own_get_obj_set_eq|]. split.
  { simpl. rewrite imported_this, Ht7. apply own_get_obj_set_eq. }
  split.
  { simpl. rewrite imported_knexes, Hk7, <- Hcfg. apply connected_handle. }
  split; [simpl; by rewrite imported_databases|]. split.
  { simpl. rewrite imported_orms, Hpath.
    by rewrite lookup_app_r, Nat.sub_diag by lia. }
  split.
  { intros n [cls Hn]. rewrite <- Hpath in Hn.
    apply (importModels_binds env h _ s7 n cls Hn). }
  match goal with |- bind _ _ ?s0 = _ =>
    assert (Hset : setCurrentORM sub s0
      = (Ok tt,
         on_world (set_console
                     (λ c, c ++ [mkLog LOG "currentORM" (PRef (Ref o))]))
           (on_this (set_currentORM (Ref o)) s0)))
  end.
  { unfold setCurrentORM. rewrite bind_gets.
    cbn [this tenantORMs on_this set_tenantORMs].
    rewrite (js_get_own _ _ _ (own_get_obj_set_eq _ sub o)). reflexivity. }
  by rewrite (bind_Ok _ _ _ _ _ Hset).
Qed.

Lemma createTenant_provisions_witness :
  let env := demo_env no_fault in
  let s := after (buildMainORM env) demo_start in
  ∃ tenant s' o h,
    createTenant env "Acme" s = (Ok tenant, s')
    ∧ own_get (tenantORMs (this s')) "acme" = Some o
    ∧ own_get (tenantConnections (this s')) "acme" = Some h
    ∧ knexes (world s') !! h
      = Some (mkKnex (with_database (tenantKnexConfig (this s))
                        ("tenant_" +:+ "acme")) false)
    ∧ is_Some (databases (world s') !! ("tenant_" +:+ "acme"))
    ∧ orms (world s') !! o = Some (binding_of env (tenantModelsPath (this s)))
    ∧ (∀ n, is_Some (own_get (binding_of env (tenantModelsPath (this s))) n) →
            routes_to (world s') o n = Some h)
    ∧ (setCurrentORM "acme" ;; getCurrentORM) s'
      = (Ok (Ref o),
         on_world (set_console
                     (λ c, c ++ [mkLog LOG "currentORM" (PRef (Ref o))]))
           (on_this (set_currentORM (Ref o)) s')).
Proof.
  intros env s.
  destruct (createTenant env "Acme" s) as [[tenant|e] s'] eqn:E.
  - destruct (createTenant_provisions env "Acme" s tenant s' E) as (o & h & H).
    by exists tenant, s', o, h.
  - vm_compute in E. discriminate E.
Defined.

(** ** The registry row of a tenant *)

Lemma registered_row_storage sysK c row s s' :
  same_but_databases s s' → registry_kept s s' →
  registered_row sysK c row s → registered_row sysK c row s'.
Proof.
  intros (Ht & Hk & _) Hkept (Hok & Hsys & Hlive & Hrow).
  split; [by apply (registry_ok_frame s)|].
  split; [by rewrite Ht|]. split; [by rewrite Hk|].
  by apply (has_row_kept _ _ s).
Qed.

Lemma registered_row_console sysK c row l t p s :
  registered_row sysK c row s →
  registered_row sysK c row (console_write l t p s).2.
Proof.
  intros (Hok & Hsys & Hlive & Hrow).
  split; [by apply (registry_ok_frame s)|]. done.
Qed.

Lemma registered_row_connected sysK c row sub s :
  registered_row sysK c row s → registered_row sysK c row (connected sub s).
Proof.
  intros (Hok & Hsys & Hlive & Hrow).
  split; [by apply registry_ok_connected|]. split; [done|]. split.
  - pose proof (system_valid s Hok) as Hv.
    assert (Hlt : sysK < length (knexes (world s))) by (subst sysK; lia).
    unfold connected. simpl.
    destruct (own_get (tenantConnections (this s)) sub) as [h|] eqn:Hsub;
      simpl.
    + rewrite lookup_app_l by (rewrite length_alter; lia).
      rewrite list_lookup_alter_ne; [done|]. intros ->.
      destruct (registered_live s Hok _ _ Hsub) as [Hh _]. lia.
    + by rewrite lookup_app_l by lia.
  - destruct (connected_world sub s) as (_ & _ & _ & Hd & _).
    unfold has_row. by rewrite Hd.
Qed.

Lemma registered_row_createTenantConnection sysK c row sub :
  pres (registered_row sysK c row) (_createTenantConnection sub).
Proof.
  intros s Hs. split; [|done].
  destruct (createTenantConnection_cases sub s) as [->|[e ->]]; [|done].
  by apply registered_row_connected.
Qed.

Lemma registered_row_fields sysK c row s s' :
  systemKnex (this s') = systemKnex (this s) →
  tenantKnex (this s') = tenantKnex (this s) →
  tenantKnexConfig (this s') = tenantKnexConfig (this s) →
  tenantConnections (this s') = tenantConnections (this s) →
  knexes (world s') = knexes (world s) →
  databases (world s') = databases (world s) →
  registered_row sysK c row s → registered_row sysK c row s'.
Proof.
  intros E1 E2 E3 E4 E5 E6 (Hok & Hsys & Hlive & Hrow).
  split; [by apply (registry_ok_fields s)|].
  split; [by rewrite E1|]. split; [by rewrite E5|].
  unfold has_row. by rewrite E6.
Qed.

(** The row survives the whole of [provision], whatever its outcome. *)
Lemma registered_row_provision env sysK c row sub t :
  pres (registered_row sysK c row) (provision env sub t).
Proof.
  apply (pres_provision _ _ (λ _, True)).
  - intros l x p. apply stable_console. intros. by apply registered_row_console.
  - intros h n. apply stable_migrate_up. apply registered_row_storage.
  - intros h p. apply stable_run_seed. apply registered_row_storage.
  - intros h dbn. apply stable_create_database. apply registered_row_storage.
  - apply registered_row_createTenantConnection.
  - intros k p. apply pres_importModels_frame.
    intros s s' Ht Hk Hd. apply registered_row_fields; by rewrite ?Ht.
  - intros sub' o s _. by apply registered_row_fields.
Qed.





(** X14.  A tenant that [createTenant] has returned is in the registry that
    [getDbTenants] reads, provided the [Tenant] class of the system binding
    queries through the system connection: [getDbTenants] succeeds
    afterwards and its result contains the returned record. *)
Theorem created_tenant_is_listed env name s tenant s' :
  reachable s →
  routes_to (world s) (mainORM (this s)) "Tenant" = Some (systemKnex (this s)) →
  createTenant env name s = (Ok tenant, s') →
  ∃ tenants, getDbTenants s' = (Ok tenants, s') ∧ tenant ∈ tenants.
Proof.
  intros Hreach Hr.
  change (createTenant env name)
    with (bind (register_tenant env (toLowerCase name))
            (provision env (toLowerCase name))).
  intros H. apply bind_inv_Ok in H as (t & s1 & Hreg & Hprov).
  pose proof (provision_returns _ _ _ _ _ _ Hprov) as ->.
  assert (Hrow : ∃ c, registered_row (systemKnex (this s)) c t s1).
  { revert Hreg. unfold register_tenant, try_catch.
    destruct (bind (gets (λ s, mainORM (this s))) _ s) as [[a|e] s0] eqn:Hbody.
    - intros [= -> ->]. rewrite bind_gets in Hbody.
      apply bind_inv_Ok in Hbody as (k & s2 & Hq & Hins).
      pose proof (Model_query_state (mainORM (this s)) "Tenant" s) as Hqs.
      rewrite Hq in Hqs. simpl in Hqs. subst s2.
      assert (k = systemKnex (this s)) as ->.
      { revert Hq. unfold Model_query, bind, gets. simpl.
        unfold routes_to in Hr.
        destruct (orms (world s) !! mainORM (this s)) as [props|]; [|done].
        simpl in *. destruct (own_get props "Tenant") as [cls|]; [|done].
        simpl in *. rewrite Hr. by intros [= <-]. }
      unfold insert_Tenant in Hins.
      apply bind_inv_Ok in Hins as ([c d] & s2 & Hacq & Hins).
      apply acquire_inv_Ok in Hacq as (-> & kx & Hk & Hlive & -> & Hd).
      destruct (insert_fault env (database (config kx)) (toLowerCase name));
        [done|].
      case_bool_decide; [done|]. injection Hins as <- <-.
      exists (config kx). split.
      { apply (registry_ok_frame s); [done..|].
        by apply reachable_registry_ok. }
      split; [done|]. split.
      { simpl. rewrite Hk. by destruct kx; simpl in *; subst. }
      eexists. split; [apply lookup_insert_eq|]. simpl.
      apply elem_of_app. right. by left.
    - unfold bind, console_write, modify. by case_bool_decide. }
  destruct Hrow as [c Hrow].
  destruct (registered_row_provision env _ c t (toLowerCase name) t s1 Hrow)
    as [Hrow' _].
  rewrite Hprov in Hrow'. simpl in Hrow'.
  destruct Hrow' as (_ & Hsys & Hk & d' & Hd' & Hin).
  exists (Tenants d'). split; [|done].
  unfold getDbTenants. rewrite bind_gets, Hsys. unfold select_Tenants.
  by rewrite (bind_Ok _ _ _ _ _ (acquire_Ok _ s' _ d' Hk eq_refl Hd')).
Qed.

Lemma created_tenant_is_listed_witness :
  let env := demo_env no_fault in
  let s := after (buildMainORM env) demo_start_split in
  ∃ tenant s' tenants,
    createTenant env "Acme" s = (Ok tenant, s')
    ∧ getDbTenants s' = (Ok tenants, s') ∧ tenant ∈ tenants.
Proof.
  intros env s.
  destruct (createTenant env "Acme" s) as [[tenant|e] s'] eqn:E;
    [|vm_compute in E; discriminate E].
  destruct (created_tenant_is_listed env "Acme" s tenant s') as (ts & H).
  - apply (reach_call env OBuildMainORM). apply reach_constructor_split.
  - vm_compute. reflexivity.
  - exact E.
  - by exists tenant, s', ts.
Defined.

(** ** Migrations applied as a whole *)

Lemma pending_of_nil units : pending_of units [] = units.
Proof.
  unfold pending_of. apply filter_all, Forall_forall. intros x _.
  apply not_elem_of_nil.
Qed.

Lemma up_prefix_no_failure fault plan :
  (up_prefix fault plan).2 = None → (up_prefix fault plan).1 = plan.
Proof.
  destruct (up_prefix fault plan) as [a f] eqn:E. simpl. intros ->.
  by destruct (up_prefix_spec _ _ _ _ E) as [_ ->].
Qed.

Lemma outcome_Ok failure : outcome failure = Ok tt → failure = None.
Proof. by destruct failure as [[u e]|]. Qed.

(** A plan that was computed and then applied with success: every pending
    unit is in the ledger, nothing else has changed but the console. *)
Lemma migrations_all_applied env h c d s f s4 s5 :
  connects s h c d →
  NoDup (migration_units env (migrations_directory c)) →
  _initializeMigrations env h s = (Ok f, s4) →
  (match f with Some run => run | None => ret tt end) s4 = (Ok tt, s5) →
  this s5 = this s
  ∧ knexes (world s5) = knexes (world s)
  ∧ databases (world s5)
    = <[database c :=
          extend_ledger d
            (pending_of (migration_units env (migrations_directory c))
               (ledger d))]> (databases (world s)).
Proof.
  intros Hc Hnd Hplan Hrun.
  rewrite (initializeMigrations_run env h c d s Hc) in Hplan.
  destruct (pending_of (migration_units env (migrations_directory c))
              (ledger d)) as [|u r] eqn:Hp.
  - injection Hplan as <- <-. injection Hrun as <-.
    split; [done|]. split; [done|]. simpl.
    rewrite extend_ledger_nil. symmetry. apply insert_id, Hc.
  - injection Hplan as <- <-.
    match type of Hrun with _ ?s0 = _ =>
      destruct (apply_plan_run env h c (u :: r) Hnd s0 d) as
        (s' & Hrun' & (Ht & Hk & _) & Hdb); [by destruct Hc|done|]
    end.
    remember (up_prefix (up_fault env (database c)) (u :: r)) as pr eqn:Epr.
    assert (Heq : (Ok tt, s5) = (outcome pr.2, s'))
      by (etransitivity; [symmetry; exact Hrun | exact Hrun']).
    injection Heq as Hout ->.
    symmetry in Hout. apply outcome_Ok in Hout. rewrite Epr in Hout.
    apply up_prefix_no_failure in Hout. rewrite <- Epr in Hout.
    rewrite Hout in Hdb. by rewrite Ht, Hk, Hdb.
Qed.

Lemma registry_kept_insert_Tenant env h n st sd db s :
  registry_kept s (insert_Tenant env h n st sd db s).2.
Proof.
  unfold insert_Tenant, bind. acquired h s k d Hk.
  destruct (insert_fault env (database (config k)) n);
    [apply registry_kept_refl|].
  case_bool_decide; [apply registry_kept_refl|].
  apply (registry_kept_store _ _ d); [done|].
  intros row Hrow. simpl. apply elem_of_app. by left.
Qed.

Lemma register_tenant_kept env sub s :
  registry_kept s (register_tenant env sub s).2.
Proof.
  intros dbn d Hd.
  assert (Hp : pres (λ s0, ∃ d', databases (world s0) !! dbn = Some d'
                               ∧ ∀ row, row ∈ Tenants d → row ∈ Tenants d')
                 (register_tenant env sub)).
  { apply pres_register_tenant.
    - intros l t p. by apply inv_modify.
    - intros h n st sd db s0 (d0 & Hd0 & Hrows). split; [|done].
      destruct (registry_kept_insert_Tenant env h n st sd db s0 dbn d0 Hd0)
        as (d1 & Hd1 & Hrows1).
      exists d1. split; [done|]. auto. }
  destruct (Hp s) as [H _]; [by exists d|]. exact H.
Qed.

(** X15.  The database of a newly provisioned tenant.  When [createTenant]
    succeeds (migration units having distinct names), the seeds directory
    was readable, the database [tenant_<subdomain>] did not exist before,
    and afterwards it holds, in this order, every migration unit of the
    migrations directory in its ledger and every seed of the seeds directory
    that exports a [seed] function, and no registry row. *)
Theorem createTenant_fresh_database env name s tenant s' :
  NoDup (migration_units env
           (migrations_directory (tenantKnexConfig (this s)))) →
  createTenant env name s = (Ok tenant, s') →
  let seedDirectory :=
    path_join (tenantModelsPath (this s)) (tenantSeedRoute (this s)) in
  let dbName := "tenant_" +:+ toLowerCase name in
  ∃ seedFiles,
    readdir_seeds env seedDirectory = Some seedFiles
    ∧ databases (world s) !! dbName = None
    ∧ databases (world s') !! dbName
      = Some (mkDatabase
                (migration_units env
                   (migrations_directory (tenantKnexConfig (this s))))
                []
                (seed_paths env seedDirectory seedFiles)).
Proof.
  intros Hnd.
  change (createTenant env name)
    with (bind (register_tenant env (toLowerCase name))
            (provision env (toLowerCase name))).
  intros H seedDirectory dbName.
  set (sub := toLowerCase name) in *.
  apply bind_inv_Ok in H as (t & s1 & Hreg & Hprov).
  destruct (register_tenant_this env sub s) as [Ht1 _].
  pose proof (register_tenant_kept env sub s) as Hkept.
  rewrite Hreg in Ht1, Hkept. simpl in Ht1, Hkept.
  apply provision_Ok_inv in Hprov
    as (s2 & f & s4 & s5 & sd & s6 & s7 & Hcd & _ & Hplan & Hrun & Hsd & Hseed
        & -> & _).
  apply create_database_Ok_inv in Hcd as ((Ht2 & Hk2 & _) & Hnone & Hdb2).
  fold dbName in Hnone, Hdb2.
  set (h := length (knexes (world s2))) in *.
  set (s3 := connected sub s2) in *.
  set (cfg := with_database (tenantKnexConfig (this s)) dbName).
  assert (Hc3 : connects s3 h cfg (mkDatabase [] [] [])).
  { split.
    - unfold cfg. rewrite <- Ht1, <- Ht2. apply connected_handle.
    - destruct (connected_world sub s2) as (_ & _ & _ & E & _).
      unfold s3. rewrite E, Hdb2. apply lookup_insert_eq. }
  destruct (migrations_all_applied env h cfg _ s3 f s4 s5 Hc3 Hnd Hplan Hrun)
    as (Ht5 & Hk5 & Hdb5).
  simpl in Hdb5. rewrite pending_of_nil in Hdb5.
  assert (Hdir : path_join (tenantModelsPath (this s3))
                   (tenantSeedRoute (this s3)) = seedDirectory).
  { unfold seedDirectory, s3. simpl. by rewrite Ht2, Ht1. }
  rewrite Hdir, initializeSeeders_run in Hsd.
  destruct (readdir_seeds env seedDirectory) as [files|]; [|done].
  injection Hsd as <- <-.
  destruct (run_seeders_run env h cfg seedDirectory files s5
              (extend_ledger (mkDatabase [] [] [])
                 (migration_units env (migrations_directory cfg))))
    as (s7' & Hrun7 & _ & Hdb7).
  { split; [rewrite Hk5; apply Hc3|]. rewrite Hdb5. apply lookup_insert_eq. }
  remember (up_prefix (seed_fault env (database cfg))
              (seed_paths env seedDirectory files)) as pr eqn:Epr.
  rewrite Hseed in Hrun7. injection Hrun7 as Hout <-.
  symmetry in Hout. apply outcome_Ok in Hout. rewrite Epr in Hout.
  apply up_prefix_no_failure in Hout. rewrite <- Epr in Hout.
  rewrite Hout in Hdb7.
  exists files. split; [done|]. split.
  { destruct (databases (world s) !! dbName) as [d0|] eqn:Hd0; [|done].
    destruct (Hkept _ _ Hd0) as (d1 & Hd1 & _). congruence. }
  simpl. rewrite imported_databases, Hdb7. apply lookup_insert_eq.
Qed.

Lemma createTenant_fresh_database_witness :
  let env := demo_env_seeds no_fault in
  let s := after (buildMainORM env) demo_start in
  ∃ tenant s' seedFiles,
    createTenant env "Acme" s = (Ok tenant, s')
    ∧ readdir_seeds env "models/../../knex/seeds" = Some seedFiles
    ∧ databases (world s) !! "tenant_acme" = None
    ∧ databases (world s') !! "tenant_acme"
      = Some (mkDatabase ["A"; "B"; "C"] []
                (seed_paths env "models/../../knex/seeds" seedFiles)).
Proof.
  intros env s.
  destruct (createTenant env "Acme" s) as [[tenant|e] s'] eqn:E;
    [|vm_compute in E; discriminate E].
  destruct (createTenant_fresh_database env "Acme" s tenant s')
    as (files & H).
  - apply (bool_decide_unpack _). vm_compute. exact I.
  - exact E.
  - by exists tenant, s', files.
Defined.

(** ** [migrateMainDb] *)








(** ** Connections and bindings for the tenants of the registry *)

Lemma own_get_keys {V} (o : list (string * V)) k :
  is_Some (own_get o k) ↔ k ∈ obj_keys o.
Proof.
  unfold obj_keys. induction o as [|[k' v] r IH]; simpl.
  - split; [by intros [? ?]|]. by intros ?%elem_of_nil.
  - case_decide as Hk.
    + subst. split; [intros _; by left | by eexists].
    + rewrite IH. split; [by right|]. by intros [?|?]%elem_of_cons.
Qed.

Lemma plain_not_inherited s sub : sub ∉ Object_prototype → plain_key s sub.
Proof.
  intros Hsub k. unfold js_get.
  destruct (own_get (tenantConnections (this s)) sub); [done|].
  by rewrite bool_decide_false.
Qed.

(** The loop of [buildTenantConnections]: one new connection per row, in
    the order of the rows. *)
Lemma connect_each (ts : list iTenant.t) :
  ∀ s,
    registry_ok s →
    (∀ t, t ∈ ts → iTenant.subdomain t ∉ Object_prototype) →
    ∃ s',
      for_of ts (λ tenant,
        _createTenantConnection (iTenant.subdomain tenant) ;; ret tt) s
      = (Ok tt, s')
      ∧ registry_ok s'
      ∧ (∀ t, t ∈ ts →
           is_Some (own_get (tenantConnections (this s'))
                      (iTenant.subdomain t)))
      ∧ (∀ sub, is_Some (own_get (tenantConnections (this s)) sub) →
                is_Some (own_get (tenantConnections (this s')) sub))
      ∧ length (knexes (world s')) = length (knexes (world s)) + length ts
      ∧ databases (world s') = databases (world s)
      ∧ tenantKnexConfig (this s') = tenantKnexConfig (this s)
      ∧ tenantModelsPath (this s') = tenantModelsPath (this s)
      ∧ currentORM (this s') = currentORM (this s)
      ∧ bindings_as_in s s'.
Proof.
  induction ts as [|t r IH]; intros s Hok Hplain.
  - exists s. split; [done|]. split; [done|].
    split; [by intros t ?%elem_of_nil|]. split; [done|].
    split; [simpl; lia|]. by repeat split.
  - set (sub := iTenant.subdomain t).
    assert (Hrun : _createTenantConnection sub s
                   = (Ok (length (knexes (world s))), connected sub s)).
    { apply createTenantConnection_Ok, plain_not_inherited, Hplain. by left. }
    destruct (IH (connected sub s)) as
      (s' & Hloop & Hok' & Hreg & Hmono & Hlen & Hdb & Hcfg & Hpath & Hcur
       & Ho & Hck & Hm & Hto).
    { by apply registry_ok_connected. }
    { intros t' Ht'. apply Hplain. by right. }
    destruct (connected_world sub s) as (Eo & Eck & _ & Ed & _).
    exists s'. split.
    { cbn [for_of]. unfold bind at 1. fold sub.
      rewrite (bind_Ok _ _ _ _ _ Hrun). exact Hloop. }
    split; [done|]. split.
    { intros t' [->|Ht']%elem_of_cons; [|by apply Hreg].
      apply Hmono. fold sub. simpl. rewrite own_get_obj_set_eq. by eexists. }
    split.
    { intros sub' H. apply Hmono. simpl. rewrite own_get_obj_set.
      case_decide; [by eexists | done]. }
    split.
    { rewrite Hlen. unfold connected. simpl. rewrite length_app. simpl.
      destruct (own_get (tenantConnections (this s)) sub); simpl;
        rewrite ?length_alter; lia. }
    split; [congruence|]. split; [by rewrite Hcfg|].
    split; [by rewrite Hpath|]. split; [by rewrite Hcur|].
    unfold bindings_as_in. by rewrite Ho, Hck, Hm, Hto, Eo, Eck.
Qed.

(** X18.  [buildTenantConnections] reads the registry through the system
    connection and opens one new connection per row, in the order of the
    rows.  From a reachable state, with the registry readable and no row
    whose subdomain is a member of [Object.prototype], it returns normally;
    afterwards every tenant of the registry has a live connection registered
    under its subdomain, configured for the database [tenant_<subdomain>];
    as many connections were created as there are rows; no database was
    touched and no binding was built or changed (so [setCurrentORM] knows
    exactly the tenants it knew before). *)
Theorem buildTenantConnections_registers_every_tenant s c d :
  reachable s →
  connects s (systemKnex (this s)) c d →
  (∀ t, t ∈ Tenants d → iTenant.subdomain t ∉ Object_prototype) →
  ∃ s',
    buildTenantConnections s = (Ok tt, s')
    ∧ (∀ t, t ∈ Tenants d →
         ∃ h, own_get (tenantConnections (this s')) (iTenant.subdomain t)
              = Some h
              ∧ knexes (world s') !! h
                = Some (mkKnex (with_database (tenantKnexConfig (this s))
                                  (tenant_database t)) false))
    ∧ length (knexes (world s'))
      = length (knexes (world s)) + length (Tenants d)
    ∧ databases (world s') = databases (world s)
    ∧ tenantORMs (this s') = tenantORMs (this s)
    ∧ currentORM (this s') = currentORM (this s).
Proof.
  intros Hreach Hc Hplain.
  assert (Hget : getDbTenants s = (Ok (Tenants d), s)).
  { unfold getDbTenants. rewrite bind_gets. unfold select_Tenants.
    by rewrite (bind_Ok _ _ _ _ _ (connects_acquire _ _ _ _ Hc)). }
  destruct (connect_each (Tenants d) s (reachable_registry_ok s Hreach) Hplain)
    as (s' & Hloop & Hok' & Hreg & _ & Hlen & Hdb & Hcfg & _ & Hcur
        & _ & _ & _ & Hto).
  exists s'. split.
  { unfold buildTenantConnections. by rewrite (bind_Ok _ _ _ _ _ Hget). }
  split; [|done].
  intros t Ht. destruct (Hreg t Ht) as [h Hh]. exists h. split; [done|].
  destruct (registered_live s' Hok' _ _ Hh) as [_ Hk]. by rewrite Hcfg in Hk.
Qed.

Lemma buildTenantConnections_registers_every_tenant_witness :
  ∃ s',
    buildTenantConnections demo_fleet = (Ok tt, s')
    ∧ (∀ t, t ∈ Tenants demo_registry →
         ∃ h, own_get (tenantConnections (this s')) (iTenant.subdomain t)
              = Some h
              ∧ knexes (world s') !! h
                = Some (mkKnex (with_database
                                  (tenantKnexConfig (this demo_fleet))
                                  (tenant_database t)) false))
    ∧ length (knexes (world s'))
      = length (knexes (world demo_fleet)) + length (Tenants demo_registry)
    ∧ databases (world s') = databases (world demo_fleet)
    ∧ tenantORMs (this s') = tenantORMs (this demo_fleet)
    ∧ currentORM (this s') = currentORM (this demo_fleet).
Proof.
  apply (buildTenantConnections_registers_every_tenant demo_fleet demo_config
           demo_registry).
  - unfold demo_fleet. do 3 apply reach_call. apply reach_constructor_split.
  - split; vm_compute; reflexivity.
  - intros t Ht. apply (bool_decide_unpack _).
    repeat (apply elem_of_cons in Ht as [->|Ht]; [vm_compute; exact I|]).
    by apply elem_of_nil in Ht.
Defined.

(** One turn of the loop of [buildTenantORMs] never throws. *)
Lemma bound_run env sub s :
  (let* c := gets (λ s, own_get (tenantConnections (this s)) sub) in
   let* p := gets (λ s, tenantModelsPath (this s)) in
   match c with
   | Some c =>
       let* orm := _importModels env c p in
       modify (on_this (set_tenantORMs (λ t, obj_set t sub orm)))
   | None => ret tt
   end) s
  = (Ok tt, bound env sub s).
Proof.
  rewrite !bind_gets. unfold bound.
  destruct (own_get (tenantConnections (this s)) sub) as [c|]; [|done].
  by rewrite (bind_Ok _ _ _ _ _ (importModels_run env _ _ s)).
Qed.

(** What one turn leaves as it was. *)
Lemma bound_frame env sub s :
  tenantConnections (this (bound env sub s)) = tenantConnections (this s)
  ∧ tenantModelsPath (this (bound env sub s)) = tenantModelsPath (this s)
  ∧ currentORM (this (bound env sub s)) = currentORM (this s)
  ∧ mainORM (this (bound env sub s)) = mainORM (this s)
  ∧ knexes (world (bound env sub s)) = knexes (world s)
  ∧ databases (world (bound env sub s)) = databases (world s).
Proof.
  unfold bound. destruct (own_get (tenantConnections (this s)) sub) as [c|];
    [|done].
  simpl. by rewrite imported_this, imported_knexes, imported_databases.
Qed.

Lemma bound_all_frame env keys :
  ∀ s,
    let s' := foldl (λ s sub, bound env sub s) s keys in
    tenantConnections (this s') = tenantConnections (this s)
    ∧ tenantModelsPath (this s') = tenantModelsPath (this s)
    ∧ currentORM (this s') = currentORM (this s)
    ∧ mainORM (this s') = mainORM (this s)
    ∧ knexes (world s') = knexes (world s)
    ∧ databases (world s') = databases (world s).
Proof.
  induction keys as [|k r IH]; intros s; simpl; [done|].
  destruct (IH (bound env k s)) as (-> & -> & -> & -> & -> & ->).
  apply bound_frame.
Qed.

(** Bindings built earlier keep their properties, and names that are not
    visited keep their binding. *)
Lemma bound_all_older env keys :
  ∀ s,
    let s' := foldl (λ s sub, bound env sub s) s keys in
    (∀ o props, orms (world s) !! o = Some props →
                orms (world s') !! o = Some props)
    ∧ (∀ sub, sub ∉ keys →
              own_get (tenantORMs (this s')) sub
              = own_get (tenantORMs (this s)) sub).
Proof.
  induction keys as [|k r IH]; intros s; simpl; [done|].
  destruct (IH (bound env k s)) as [Ho Ht]. split.
  - intros o props H. apply Ho. unfold bound.
    destruct (own_get (tenantConnections (this s)) k); [|done].
    simpl. rewrite imported_orms. by apply lookup_app_l_Some.
  - intros sub Hsub. rewrite Ht by (intros ?; apply Hsub; by right).
    unfold bound. destruct (own_get (tenantConnections (this s)) k); [|done].
    simpl. rewrite imported_this. apply own_get_obj_set_ne.
    intros ->. apply Hsub. by left.
Qed.

(** Every name with a connection gets a binding built from the tenant
    models. *)
Lemma bound_all_binds env keys :
  ∀ s sub,
    sub ∈ keys →
    is_Some (own_get (tenantConnections (this s)) sub) →
    let s' := foldl (λ s sub, bound env sub s) s keys in
    ∃ o, own_get (tenantORMs (this s')) sub = Some o
         ∧ orms (world s') !! o
           = Some (binding_of env (tenantModelsPath (this s))).
Proof.
  induction keys as [|k r IH]; intros s sub Hin Hc; simpl;
    [by apply elem_of_nil in Hin|].
  destruct (bound_frame env k s) as (Etc & Epath & _).
  destruct (decide (sub ∈ r)) as [Hr|Hr].
  - destruct (IH (bound env k s) sub Hr) as (o & Ho & Hb);
      [by rewrite Etc|].
    exists o. by rewrite Epath in Hb.
  - apply elem_of_cons in Hin as [->|?]; [|done].
    destruct (bound_all_older env r (bound env k s)) as [Hold Hkeep].
    exists (length (orms (world s))). rewrite (Hkeep k Hr). split.
    + unfold bound. destruct Hc as [c ->]. simpl. apply own_get_obj_set_eq.
    + apply Hold. unfold bound. destruct Hc as [c ->]. simpl.
      rewrite imported_orms. by rewrite lookup_app_r, Nat.sub_diag by lia.
Qed.

(** After the loop every class of the tenant models queries through the
    connection of the name visited last. *)
Lemma bound_all_routes env keys last s h cls :
  own_get (tenantConnections (this s)) last = Some h →
  cls ∈ (model_classes env (tenantModelsPath (this s))).*2 →
  class_knex (world (foldl (λ s sub, bound env sub s) s (keys ++ [last])))
    !! cls = Some h.
Proof.
  intros Hh Hcls. rewrite foldl_app. simpl.
  destruct (bound_all_frame env keys s) as (Etc & Epath & _).
  unfold bound at 1. rewrite Etc, Hh. simpl.
  rewrite imported_class_knex, Epath. by rewrite bool_decide_true.
Qed.

Lemma buildTenantORMs_run env s :
  obj_keys (tenantConnections (this s)) ≠ [] →
  buildTenantORMs env s
  = (Ok tt,
     foldl (λ s sub, bound env sub s) s (obj_keys (tenantConnections (this s)))).
Proof.
  intros Hne. unfold buildTenantORMs. rewrite bind_gets.
  destruct (obj_keys (tenantConnections (this s))) as [|k r] eqn:Hk; [done|].
  cbn [length Nat.eqb]. unfold bind at 1, ret at 1. rewrite bind_gets, Hk.
  apply for_of_foldl. intros sub s0. apply bound_run.
Qed.



(** X20.  After [buildTenantORMs] all tenants share one connection.  The
    bindings it stores are distinct objects, but they hold the same model
    classes (those of the tenant models directory), and a class has one
    connection: the one it was bound to last.  So after the call there is one
    registered tenant connection through which every model of every binding
    stored by the call queries, whichever tenant the binding is stored
    for. *)
Theorem buildTenantORMs_shares_one_connection env s :
  obj_keys (tenantConnections (this s)) ≠ [] →
  let s' := after (buildTenantORMs env) s in
  ∃ last h,
    own_get (tenantConnections (this s')) last = Some h
    ∧ ∀ sub o n,
        sub ∈ obj_keys (tenantConnections (this s)) →
        own_get (tenantORMs (this s')) sub = Some o →
        is_Some (own_get (binding_of env (tenantModelsPath (this s))) n) →
        routes_to (world s') o n = Some h.
Proof.
  intros Hne s'.
  destruct (exists_last Hne) as (keys & last & Hkeys).
  assert (Hlast : is_Some (own_get (tenantConnections (this s)) last)).
  { apply own_get_keys. rewrite Hkeys. apply elem_of_app. right. by left. }
  destruct Hlast as [h Hh].
  assert (Hrun : buildTenantORMs env s
    = (Ok tt, foldl (λ s sub, bound env sub s) s (keys ++ [last]))).
  { rewrite <- Hkeys. apply buildTenantORMs_run. rewrite Hkeys.
    by destruct keys. }
  destruct (bound_all_frame env (keys ++ [last]) s) as (Etc & _).
  unfold after in s'. subst s'. rewrite Hrun. simpl.
  exists last, h. split; [by rewrite Etc|].
  intros sub o n Hsub Ho [cls Hn].
  pose proof Hsub as Hsub'. rewrite Hkeys in Hsub'.
  destruct (bound_all_binds env (keys ++ [last]) s sub Hsub') as (o' & Ho' & Hb).
  { by apply own_get_keys. }
  rewrite Ho' in Ho. injection Ho as ->.
  unfold routes_to. rewrite Hb. simpl. rewrite Hn. simpl.
  apply bound_all_routes; [done|]. by eapply binding_of_classes.
Qed.

Lemma buildTenantORMs_shares_one_connection_witness :
  let env := demo_env no_fault in
  let s' := after (buildTenantORMs env) demo_fleet in
  ∃ last h,
    own_get (tenantConnections (this s')) last = Some h
    ∧ ∀ sub o n,
        sub ∈ obj_keys (tenantConnections (this demo_fleet)) →
        own_get (tenantORMs (this s')) sub = Some o →
        is_Some (own_get (binding_of env
                            (tenantModelsPath (this demo_fleet))) n) →
        routes_to (world s') o n = Some h.
Proof.
  apply (buildTenantORMs_shares_one_connection (demo_env no_fault) demo_fleet).
  vm_compute. discriminate.
Defined.



(** ** The fleet: planning *)






(** ** The fleet: seeds *)





(** ** The configuration never changes *)

Lemma configuration_call env op T :
  pres (λ s, configuration (this s) = T) (call env op).
Proof.
  assert (Hfr : ∀ s s', this s' = this s →
                        configuration (this s) = T →
                        configuration (this s') = T).
  { by intros s s' ->. }
  apply (pres_call _ _ (λ _, True)).
  - intros l t p. by apply inv_modify.
  - intros h n. apply pres_frame; [apply migrate_up_frame|].
    intros s s' (? & _). by apply Hfr.
  - intros h p. apply pres_frame; [apply run_seed_frame|].
    intros s s' (? & _). by apply Hfr.
  - intros. apply pres_frame; [apply insert_Tenant_frame|].
    intros s s' (? & _). by apply Hfr.
  - intros. apply pres_frame; [apply create_database_frame|].
    intros s s' (? & _). by apply Hfr.
  - intros sub s Hs. split; [|done].
    destruct (createTenantConnection_cases sub s) as [->|[e ->]]; done.
  - done.
  - intros c p. apply pres_importModels_frame. intros s s' ? _ _. by apply Hfr.
  - done.
  - done.
  - done.
Qed.

(** X23.  No public method changes the configuration of the instance: the
    variant, the two knex configurations, the system connection and the
    connection on the tenant configuration that the constructor opened, the
    two models directories and the seeds route are, after any sequence of
    calls (in whatever surroundings, and whatever the calls return or
    throw), what they were before. *)
Theorem configuration_is_fixed (calls : list (Env * Op)) s :
  configuration
    (this (foldl (λ s0 (eo : Env * Op), (call eo.1 eo.2 s0).2) s calls))
  = configuration (this s).
Proof.
  revert s. induction calls as [|[env op] r IH]; intros s; simpl; [done|].
  rewrite IH.
  by destruct (configuration_call env op (configuration (this s)) s eq_refl).
Qed.











(** ** [migrate], from end to end *)





(** ** What a binding holds *)



